(** * SimpleSearchEngine: an inverted index with AND/OR queries

    A shallow embedding of [src/search_engine.py] and the proofs of its
    specification.

    Layout of the development:
    - [PyStr]: the methods of Python's [str] the engine calls
      ([lower], [upper], [strip], [split], the [in] operator);
    - the tokenizer [_tokenize] (here [tokenize]);
    - [Postings]: the term -> posting-set view of the inverted index and
      the per-token updates of the two loops of the source;
    - the engine itself, with the set objects of the index kept in an
      object store, so that in-place updates ([add], [discard],
      [intersection_update], [update]) and [copy] are what they are in
      Python;
    - well-formedness of the object store and the simulation of the
      object-level loops by the [Postings] view;
    - the invariants and the properties of the specification;
    - the listings [display_index] and [display_documents], as the
      strings they print;
    - further properties of the tokenizer, of the three methods and of
      the listings (X1 to X24).

    Scope of the model.  Characters are [ascii]; the model is exact on
    ASCII text (code points below 128), the case mappings and the white
    space of Python for larger code points are not modelled: such
    characters are caseless and are not white space here.  The [print]
    calls of the source have no effect on the engine and are left out. *)

From Stdlib Require Import Ascii String.
From stdpp Require Import gmap strings list fin_maps pretty sorting.

Open Scope string_scope.

Set Warnings "-clear-no-such-hyp".

(** ** Python's string methods *)

Module PyStr.

Definition code (c : ascii) : nat := nat_of_ascii c.

(** [str.isspace] on one ASCII character: TAB, LF, VT, FF, CR, the four
    separators FS, GS, RS, US and the blank. *)
Definition isspace (c : ascii) : bool :=
  let n := code c in
  (((9 <=? n) && (n <=? 13)) || ((28 <=? n) && (n <=? 32)))%nat.

Definition is_upper_AZ (c : ascii) : bool :=
  let n := code c in ((65 <=? n) && (n <=? 90))%nat.

(** The character class [a-z]. *)
Definition is_lower_az (c : ascii) : bool :=
  let n := code c in ((97 <=? n) && (n <=? 122))%nat.

Definition lower_char (c : ascii) : ascii :=
  if is_upper_AZ c then ascii_of_nat (code c + 32)%nat else c.

Definition upper_char (c : ascii) : ascii :=
  if is_lower_az c then ascii_of_nat (code c - 32)%nat else c.

Fixpoint map_chars (f : ascii → ascii) (s : string) : string :=
  match s with
  | "" => ""
  | String c s' => String (f c) (map_chars f s')
  end.

Fixpoint filter_chars (p : ascii → bool) (s : string) : string :=
  match s with
  | "" => ""
  | String c s' =>
      if p c then String c (filter_chars p s') else filter_chars p s'
  end.

Fixpoint forall_chars (p : ascii → bool) (s : string) : bool :=
  match s with
  | "" => true
  | String c s' => p c && forall_chars p s'
  end.

(** [s.lower()] and [s.upper()]. *)
Definition lower : string → string := map_chars lower_char.
Definition upper : string → string := map_chars upper_char.

(** [s.lstrip()], [s.strip()]. *)
Fixpoint lstrip (s : string) : string :=
  match s with
  | "" => ""
  | String c s' => if isspace c then lstrip s' else s
  end.

Definition rstrip (s : string) : string :=
  String.rev (lstrip (String.rev s)).

Definition strip (s : string) : string := rstrip (lstrip s).

(** [sub in s]. *)
Fixpoint contains (sub s : string) : bool :=
  String.prefix sub s ||
  match s with
  | "" => false
  | String _ s' => contains sub s'
  end.

(** [s.split(sep)] for a non-empty [sep]: the occurrences of [sep] are
    found from the left and do not overlap.  [cur] is the segment being
    read, last character first; [skip] counts the characters of a
    separator that are still to be passed over. *)
Fixpoint split_go (sep : string) (skip : nat) (cur s : string)
  : list string :=
  match s with
  | "" => [String.rev cur]
  | String c s' =>
      match skip with
      | S k => split_go sep k cur s'
      | O =>
          if String.prefix sep s
          then String.rev cur :: split_go sep (String.length sep - 1)%nat "" s'
          else split_go sep 0%nat (String c cur) s'
      end
  end.

Definition split (sep s : string) : list string := split_go sep 0%nat "" s.

(** [s.split()]: the maximal runs of characters that are not white
    space.  [cur] is the run being read, last character first. *)
Definition flush (cur : string) : list string :=
  match cur with
  | "" => []
  | _ => [String.rev cur]
  end.

Fixpoint split_ws_go (cur s : string) : list string :=
  match s with
  | "" => flush cur
  | String c s' =>
      if isspace c then flush cur ++ split_ws_go "" s'
      else split_ws_go (String c cur) s'
  end.

Definition split_ws (s : string) : list string := split_ws_go "" s.

(** [sep.join(l)] and [s[n:]], in which the result of [split] is
    described below. *)
Fixpoint join (sep : string) (l : list string) : string :=
  match l with
  | [] => ""
  | x :: l' =>
      match l' with
      | [] => x
      | _ :: _ => x +:+ sep +:+ join sep l'
      end
  end.

Fixpoint drop_chars (n : nat) (s : string) : string :=
  match n, s with
  | O, _ => s
  | S _, "" => ""
  | S n', String _ s' => drop_chars n' s'
  end.

End PyStr.

(** ** The tokenizer *)

(** The characters that [re.sub(r'[^a-z\s]', '', _)] keeps. *)
Definition letter_or_space (c : ascii) : bool :=
  PyStr.is_lower_az c || PyStr.isspace c.

(** [_tokenize], lines 20-26. *)
Definition tokenize (text : string) : list string :=
  let text := PyStr.filter_chars letter_or_space (PyStr.lower text) in
  PyStr.split_ws text.

(** A term as the tokenizer outputs it: non-empty, letters [a]-[z] only. *)
Definition is_term (t : string) : Prop :=
  t ≠ "" ∧ PyStr.forall_chars PyStr.is_lower_az t = true.

(** ** Query analysis *)

Inductive operator := AND | OR.

Global Instance operator_eq_dec : EqDecision operator.
Proof. solve_decision. Defined.

(** One segment of an explicit AND/OR query, line 84 and line 87:
    [term.strip().lower()]. *)
Definition segment_term (term : string) : string :=
  PyStr.lower (PyStr.strip term).

(** Lines 80-91 of [search]: the operator and the terms of a query.  The
    variable [query] is rebound to the trimmed, uppercased text on line
    80, and every later line reads that value. *)
Definition query_terms (query : string) : operator * list string :=
  let query := PyStr.upper (PyStr.strip query) in
  if PyStr.contains " AND " query then
    (AND, map segment_term (PyStr.split " AND " query))
  else if PyStr.contains " OR " query then
    (OR, map segment_term (PyStr.split " OR " query))
  else
    (AND, tokenize query).

(** ** The posting-set view of the index *)

(** What the two loops of the source do to the mapping from a term to the
    content of its posting set. *)
Module Postings.

(** Lines 48-50: create the posting set if the term is new, then add. *)
Definition add (doc_id : Z) (m : gmap string (gset Z)) (token : string)
  : gmap string (gset Z) :=
  <[token := default ∅ (m !! token) ∪ {[doc_id]}]> m.

(** Lines 66-70: discard, and drop the term when nothing is left. *)
Definition discard (doc_id : Z) (m : gmap string (gset Z)) (token : string)
  : gmap string (gset Z) :=
  match m !! token with
  | None => m
  | Some ids =>
      if decide (ids ∖ {[doc_id]} = ∅) then delete token m
      else <[token := ids ∖ {[doc_id]}]> m
  end.

End Postings.

(** ** The engine *)

(** Addresses of the set objects the index refers to. *)
Abbreviation loc := positive.

(** The three attributes of [SimpleSearchEngine], and the store of the
    [set] objects: [inverted_index] holds references, and the methods of
    [set] used by the source update the object a reference points to. *)
Record engine := Engine {
  documents : gmap Z string;
  inverted_index : gmap string loc;
  next_doc_id : Z;
  objects : gmap loc (gset Z)
}.

(** [__init__], lines 12-18. *)
Definition new_engine : engine := Engine ∅ ∅ 0 ∅.

Definition set_documents (docs : gmap Z string) (e : engine) : engine :=
  Engine docs (inverted_index e) (next_doc_id e) (objects e).

Definition set_index (idx : gmap string loc) (e : engine) : engine :=
  Engine (documents e) idx (next_doc_id e) (objects e).

Definition set_next_doc_id (n : Z) (e : engine) : engine :=
  Engine (documents e) (inverted_index e) n (objects e).

Definition set_objects (objs : gmap loc (gset Z)) (e : engine) : engine :=
  Engine (documents e) (inverted_index e) (next_doc_id e) objs.

(** [set()]: a new, empty set object and its address. *)
Definition new_set (e : engine) : loc * engine :=
  let l := fresh (dom (objects e)) in
  (l, set_objects (<[l := ∅]> (objects e)) e).

(** An in-place update of the set object at [l]. *)
Definition update_set (f : gset Z → gset Z) (l : loc) (e : engine) : engine :=
  set_objects (alter f l (objects e)) e.

(** The content of the set object at [l]. *)
Definition content (e : engine) (l : loc) : gset Z :=
  default ∅ (objects e !! l).

(** The content of [self.inverted_index[term]], if the term is a key. *)
Definition posting (e : engine) (term : string) : option (gset Z) :=
  inverted_index e !! term ≫= λ l, objects e !! l.

(** The index as a mapping from terms to contents. *)
Definition postings (e : engine) : gmap string (gset Z) :=
  omap (λ l, objects e !! l) (inverted_index e).

(** [set(self._tokenize(text))] as the loops traverse it: every token
    once.  Python fixes no order for the traversal of a set; the posting
    sets that the two loops leave are the same for every order
    ([index_token_order], [unindex_token_order] below). *)
Definition token_set (text : string) : list string :=
  remove_dups (tokenize text).

(** The body of the loop of [add_document], lines 48-50. *)
Definition index_token (doc_id : Z) (e : engine) (token : string) : engine :=
  let e :=
    match inverted_index e !! token with
    | Some _ => e
    | None =>
        let '(l, e) := new_set e in
        set_index (<[token := l]> (inverted_index e)) e
    end in
  match inverted_index e !! token with
  | Some l => update_set (λ ids, ids ∪ {[doc_id]}) l e
  | None => e
  end.

(** The body of the loop of [delete_document], lines 66-70. *)
Definition unindex_token (doc_id : Z) (e : engine) (token : string) : engine :=
  match inverted_index e !! token with
  | None => e
  | Some l =>
      let e := update_set (λ ids, ids ∖ {[doc_id]}) l e in
      if decide (content e l = ∅)
      then set_index (delete token (inverted_index e)) e
      else e
  end.

(** [delete_document], lines 55-73. *)
Definition delete_document (doc_id : Z) (e : engine) : bool * engine :=
  match documents e !! doc_id with
  | None => (false, e)
  | Some text =>
      let e := set_documents (delete doc_id (documents e)) e in
      let tokens := token_set text in
      (true, foldl (unindex_token doc_id) e tokens)
  end.

(** [add_document], lines 28-53. *)
Definition add_document (text : string) (doc_id : option Z) (e : engine)
  : Z * engine :=
  let '(doc_id, e) :=
    match doc_id with
    | None => (next_doc_id e, set_next_doc_id (next_doc_id e + 1) e)
    | Some d => (d, e)
    end in
  let e :=
    if decide (is_Some (documents e !! doc_id))
    then (delete_document doc_id e).2
    else e in
  let e := set_documents (<[doc_id := text]> (documents e)) e in
  let tokens := token_set text in
  (doc_id, foldl (index_token doc_id) e tokens).

(** The dictionary comprehension of lines 114-118. *)
Definition found_documents (result_set : gset Z) (docs : gmap Z string)
  : gmap Z string :=
  list_to_map
    (omap (λ doc_id, (λ text, (doc_id, text)) <$> docs !! doc_id)
          (elements result_set)).

(** The bodies of the loops of lines 104-106 and 109-111; [r] is the
    address of [result_set]. *)
Definition intersect_term (r : loc) (e : engine) (term : string) : engine :=
  let doc_ids := default ∅ (posting e term) in
  update_set (λ ids, ids ∩ doc_ids) r e.

Definition union_term (r : loc) (e : engine) (term : string) : engine :=
  let doc_ids := default ∅ (posting e term) in
  update_set (λ ids, ids ∪ doc_ids) r e.

(** Lines 93-120 of [search]: the evaluation of a list of terms.  The
    [copy()] of line 99 is a new object that starts with the content of
    the first posting set.  The empty sets that [get] is given as
    defaults are referred to by nothing once they are read, and are not
    kept in the store. *)
Definition evaluate (op : operator) (terms : list string) (e : engine)
  : gmap Z string * engine :=
  match terms with
  | [] => (∅, e)
  | first_term :: rest =>
      let r := fresh (dom (objects e)) in
      let e :=
        set_objects (<[r := default ∅ (posting e first_term)]> (objects e)) e in
      let e :=
        match op with
        | AND => foldl (intersect_term r) e rest
        | OR => foldl (union_term r) e rest
        end in
      (found_documents (content e r) (documents e), e)
  end.

(** [search], lines 75-120. *)
Definition search (query : string) (e : engine) : gmap Z string * engine :=
  let '(op, terms) := query_terms query in
  evaluate op terms e.

(** ** Sequences of calls *)

Inductive call :=
  | AddDocument (text : string) (doc_id : option Z)
  | DeleteDocument (doc_id : Z)
  | Search (query : string).

Definition step (e : engine) (c : call) : engine :=
  match c with
  | AddDocument text doc_id => (add_document text doc_id e).2
  | DeleteDocument doc_id => (delete_document doc_id e).2
  | Search query => (search query e).2
  end.

(** The engine after a sequence of calls on a new engine. *)
Definition run (calls : list call) : engine := foldl step new_engine calls.

(** The three documents of the demonstration, lines 144-149. *)
Definition demo : list call :=
  [ AddDocument "The quick brown fox jumps over the lazy dog." (Some 1%Z);
    AddDocument "A dog and a cat play together in the garden." (Some 2%Z);
    AddDocument "The fox is having a lazy day, but the cat is awake." (Some 3%Z) ].

(** ** Notions of the specification and of the proofs *)

(** What [discard] leaves of a posting set. *)
Definition discarded (d : Z) (o : option (gset Z)) : option (gset Z) :=
  match o with
  | None => None
  | Some ids => if decide (ids ∖ {[d]} = ∅) then None else Some (ids ∖ {[d]})
  end.

(** In an engine that only its own methods have touched, every reference
    of the index points to an object, and no two terms share one. *)
Record wf (e : engine) : Prop := {
  wf_allocated : ∀ t l,
    inverted_index e !! t = Some l → is_Some (objects e !! l);
  wf_unshared : ∀ t1 t2 l,
    inverted_index e !! t1 = Some l → inverted_index e !! t2 = Some l →
    t1 = t2
}.

(** [e'] has the documents and the counter of [e]. *)
Definition same_store (e e' : engine) : Prop :=
  documents e' = documents e ∧ next_doc_id e' = next_doc_id e.

(** The identifier [add_document] uses, and the counter it leaves. *)
Definition used_id (doc_id : option Z) (e : engine) : Z :=
  default (next_doc_id e) doc_id.

Definition counter_after (doc_id : option Z) (e : engine) : Z :=
  match doc_id with
  | None => next_doc_id e + 1
  | Some _ => next_doc_id e
  end.

(** The posting sets once the former document of [d], if any, is
    deleted. *)
Definition postings_without (d : Z) (e : engine) : gmap string (gset Z) :=
  match documents e !! d with
  | Some old => foldl (Postings.discard d) (postings e) (token_set old)
  | None => postings e
  end.

(** [e'] is [e] up to the content of the object at [r]. *)
Definition differs_at (r : loc) (e e' : engine) : Prop :=
  documents e' = documents e
  ∧ inverted_index e' = inverted_index e
  ∧ next_doc_id e' = next_doc_id e
  ∧ ∀ l, l ≠ r → objects e' !! l = objects e !! l.

(** [d] is in the posting set of [t]. *)
Definition in_posting (e : engine) (t : string) (d : Z) : Prop :=
  ∃ ids, posting e t = Some ids ∧ d ∈ ids.

(** [t] is among the tokens of the stored text of [d]. *)
Definition in_document (e : engine) (t : string) (d : Z) : Prop :=
  ∃ text, documents e !! d = Some text ∧ t ∈ tokenize text.

(** I1 and I2 of the specification. *)
Definition I1 (e : engine) : Prop :=
  ∀ t d, in_posting e t d ↔ in_document e t d.

Definition I2 (e : engine) : Prop :=
  ∀ t ids, posting e t = Some ids → ids ≠ ∅.

Record invariant (e : engine) : Prop := {
  inv_wf : wf e;
  inv_I1 : I1 e;
  inv_I2 : I2 e
}.

(** The terms as the specification words them: the operator is looked
    for in the trimmed, uppercased query, and the original query is
    split on the separator. *)
Definition spec_query_terms (query : string) : operator * list string :=
  let detect := PyStr.upper (PyStr.strip query) in
  if PyStr.contains " AND " detect then
    (AND, map segment_term (PyStr.split " AND " query))
  else if PyStr.contains " OR " detect then
    (OR, map segment_term (PyStr.split " OR " query))
  else
    (AND, tokenize query).

(** Every explicit identifier of the calls is below the counter at the
    time of its call; [e] is the engine the calls start from. *)
Definition call_below (e : engine) (c : call) : bool :=
  match c with
  | AddDocument _ (Some d) => bool_decide (d < next_doc_id e)%Z
  | _ => true
  end.

Fixpoint below_counter (e : engine) (calls : list call) : bool :=
  match calls with
  | [] => true
  | c :: calls => call_below e c && below_counter (step e c) calls
  end.

(** Every identifier in the store is below the counter. *)
Definition keys_below (e : engine) : Prop :=
  ∀ d, is_Some (documents e !! d) → (d < next_doc_id e)%Z.

(** ** The listings *)

(** The character that ["\n"] stands for. *)
Definition newline : string := String (ascii_of_nat 10) "".

(** [str(n)] for an integer [n]: its decimal digits, after a minus sign
    when it is negative. *)
Definition str_int (n : Z) : string := pretty n.

(** The text of a list of integers, as [f"{ids}"] gives it. *)
Definition str_int_list (ids : list Z) : string :=
  "[" +:+ PyStr.join ", " (str_int <$> ids) +:+ "]".

(** [sorted(self.inverted_index.items())], line 125.  The keys of a
    dictionary are distinct, so the order of the pairs is the order of
    their words, which Python compares by code points. *)
Definition by_word (a b : string * loc) : Prop := String.le a.1 b.1.

Global Instance by_word_dec : RelDecision by_word.
Proof. intros a b. unfold by_word. apply _. Defined.

Global Instance by_word_trans : Transitive by_word.
Proof. intros a b c. unfold by_word. apply transitivity. Qed.

Global Instance by_word_total : Total by_word.
Proof. intros a b. unfold by_word. apply total, _. Qed.

Definition sorted_index_items (e : engine) : list (string * loc) :=
  merge_sort by_word (map_to_list (inverted_index e)).

(** [sorted(list(doc_ids))], line 126. *)
Definition sorted_ids (doc_ids : gset Z) : list Z :=
  merge_sort Z.le (elements doc_ids).

(** The pairs that line 126 prints, in the order of the loop. *)
Definition index_rows (e : engine) : list (string * list Z) :=
  (λ item, (item.1, sorted_ids (content e item.2))) <$> sorted_index_items e.

(** [display_index], lines 122-127: the strings given to [print], in
    order. *)
Definition display_index (e : engine) : list string :=
  [newline +:+ "--- Inverted Index ---"]
  ++ ((λ row, "'" +:+ row.1 +:+ "': " +:+ str_int_list row.2)
        <$> index_rows e)
  ++ ["----------------------" +:+ newline].

(** [sorted(self.documents.items())], line 132: by identifier. *)
Definition by_id (a b : Z * string) : Prop := (a.1 ≤ b.1)%Z.

Global Instance by_id_dec : RelDecision by_id.
Proof. intros a b. unfold by_id. apply _. Defined.

Global Instance by_id_trans : Transitive by_id.
Proof. intros a b c. unfold by_id. lia. Qed.

Global Instance by_id_total : Total by_id.
Proof. intros a b. unfold by_id. lia. Qed.

Definition document_rows (e : engine) : list (Z * string) :=
  merge_sort by_id (map_to_list (documents e)).

(** [display_documents], lines 129-134: the strings given to [print],
    in order. *)
Definition display_documents (e : engine) : list string :=
  [newline +:+ "--- Document Store ---"]
  ++ ((λ row, "ID " +:+ str_int row.1 +:+ ": '" +:+ row.2 +:+ "'")
        <$> document_rows e)
  ++ ["--------------------------" +:+ newline].

(** ** Further notions *)

(** An ASCII letter. *)
Definition is_letter (c : ascii) : bool :=
  PyStr.is_lower_az c || PyStr.is_upper_AZ c.

(** The identifiers that an evaluation keeps, on the posting-set view:
    the first posting set, cut or extended by the others. *)
Definition result_ids (op : operator) (m : gmap string (gset Z))
    (terms : list string) : gset Z :=
  match terms with
  | [] => ∅
  | first_term :: rest =>
      foldl (λ ids term,
               match op with
               | AND => ids ∩ default ∅ (m !! term)
               | OR => ids ∪ default ∅ (m !! term)
               end)
            (default ∅ (m !! first_term)) rest
  end.

(** The number of calls of [add_document] without an identifier. *)
Fixpoint auto_adds (calls : list call) : Z :=
  match calls with
  | [] => 0
  | AddDocument _ None :: calls => 1 + auto_adds calls
  | _ :: calls => auto_adds calls
  end.

(** * Proofs *)

(** ** The scenarios of the specification *)

Example tokenize_ipso : tokenize "IPSO-3" = ["ipso"].
Proof. reflexivity. Qed.

Example tokenize_dont : tokenize "don't" = ["dont"].
Proof. reflexivity. Qed.

Example tokenize_sentence :
  tokenize "The quick brown fox jumps over the lazy dog." =
  ["the"; "quick"; "brown"; "fox"; "jumps"; "over"; "the"; "lazy"; "dog"].
Proof. reflexivity. Qed.

Example split_and : PyStr.split " AND " "DOG AND CAT AND " = ["DOG"; "CAT"; ""].
Proof. reflexivity. Qed.

Example split_overlap : PyStr.split "aa" "aaaXaa" = [""; "aX"; ""].
Proof. reflexivity. Qed.

Example strip_both : PyStr.strip "  a b
 " = "a b".
Proof. reflexivity. Qed.

Example demo_implicit_and :
  dom (search "fox lazy" (run demo)).1 = {[1%Z; 3%Z]}.
Proof. vm_compute. reflexivity. Qed.

Example demo_or :
  dom (search "dog OR cat" (run demo)).1 = {[1%Z; 2%Z; 3%Z]}.
Proof. vm_compute. reflexivity. Qed.

Example demo_and :
  (search "dog AND cat" (run demo)).1 =
  {[ 2%Z := "A dog and a cat play together in the garden." ]}.
Proof. vm_compute. reflexivity. Qed.

Example demo_delete :
  (search "quick" (run (demo ++ [DeleteDocument 1%Z]))).1 = ∅
  ∧ postings (run (demo ++ [DeleteDocument 1%Z])) !! "quick" = None
  ∧ postings (run (demo ++ [DeleteDocument 1%Z])) !! "fox" = Some {[3%Z]}.
Proof. vm_compute. repeat split; reflexivity. Qed.

Example display_demo :
  display_documents (run (take 1 demo))
  = [ newline +:+ "--- Document Store ---";
      "ID 1: 'The quick brown fox jumps over the lazy dog.'";
      "--------------------------" +:+ newline ]
  ∧ display_index (run [AddDocument "b a" (Some 7%Z);
                        AddDocument "a" (Some (-2)%Z)])
    = [ newline +:+ "--- Inverted Index ---";
        "'a': [-2, 7]";
        "'b': [7]";
        "----------------------" +:+ newline ].
Proof. vm_compute. split; reflexivity. Qed.

(** The three tests of [search_engine_test.py] pass. *)
Example test_add_document_updates_index :
  let r := add_document "Hello World" (Some 5%Z) new_engine in
  r.1 = 5%Z
  ∧ is_Some (inverted_index r.2 !! "hello")
  ∧ 5%Z ∈ default ∅ (posting r.2 "hello").
Proof. vm_compute. split_and!; [reflexivity|by eexists|set_solver]. Qed.

Example test_and_search_logic :
  let e := run [ AddDocument "Dog and Cat are playing." (Some 1%Z);
                 AddDocument "Only the dog is barking." (Some 2%Z) ] in
  dom (search "Dog AND Cat" e).1 = {[1%Z]}.
Proof. vm_compute. reflexivity. Qed.

Example test_or_search_logic :
  let e := run [ AddDocument "Dog" (Some 1%Z); AddDocument "Cat" (Some 2%Z);
                 AddDocument "Bird" (Some 3%Z) ] in
  dom (search "Dog OR Cat" e).1 = {[1%Z; 2%Z]}.
Proof. vm_compute. reflexivity. Qed.

Example hello_world :
  (add_document "Hello World" (Some 5%Z) new_engine).1 = 5%Z
  ∧ postings (add_document "Hello World" (Some 5%Z) new_engine).2
    = {[ "hello" := {[5%Z]}; "world" := {[5%Z]} ]}.
Proof. vm_compute. split; reflexivity. Qed.

(** ** Facts about strings and tokens *)

Section string_facts.

Implicit Types (c : ascii) (s cur t : string) (p : ascii → bool).

Lemma forall_chars_rev_app p s1 s2 :
  PyStr.forall_chars p (String.rev_app s1 s2) =
  PyStr.forall_chars p s1 && PyStr.forall_chars p s2.
Proof.
  revert s2. induction s1 as [|c s1 IH]; intros s2; simpl; [done|].
  rewrite IH. simpl. destruct (p c), (PyStr.forall_chars p s1); simpl; done.
Qed.

Lemma forall_chars_rev p s :
  PyStr.forall_chars p (String.rev s) = PyStr.forall_chars p s.
Proof.
  unfold String.rev. rewrite forall_chars_rev_app. simpl.
  by rewrite andb_true_r.
Qed.

Lemma rev_app_empty s1 s2 : String.rev_app s1 s2 = "" → s1 = "" ∧ s2 = "".
Proof.
  revert s2. induction s1 as [|c s1 IH]; intros s2; simpl; [done|].
  intros H. apply IH in H as [_ H]. discriminate H.
Qed.

Lemma rev_app_rev_app s1 s2 s3 :
  String.rev_app (String.rev_app s1 s2) s3 = String.rev_app s2 (s1 +:+ s3).
Proof.
  revert s2 s3. induction s1 as [|c s1 IH]; intros s2 s3; simpl; [done|].
  by rewrite IH.
Qed.

Lemma app_empty_r s : s +:+ "" = s.
Proof.
  induction s as [|c s IH]; [done|].
  change (String c s +:+ "") with (String c (s +:+ "")). by rewrite IH.
Qed.

Lemma rev_involutive s : String.rev (String.rev s) = s.
Proof.
  unfold String.rev. rewrite rev_app_rev_app. simpl. apply app_empty_r.
Qed.

Lemma forall_chars_impl p q s :
  (∀ c, p c = true → q c = true) →
  PyStr.forall_chars p s = true → PyStr.forall_chars q s = true.
Proof.
  intros Hpq. induction s as [|c s IH]; simpl; [done|].
  intros [Hc Hs]%andb_true_iff. rewrite (Hpq _ Hc). by apply IH.
Qed.

(** Every token that [split()] returns is non-empty, and a property of
    all the characters that are not white space is a property of the
    characters of every token. *)
Lemma split_ws_go_tokens p cur s t :
  PyStr.forall_chars p cur = true →
  PyStr.forall_chars (λ c, PyStr.isspace c || p c) s = true →
  t ∈ PyStr.split_ws_go cur s →
  t ≠ "" ∧ PyStr.forall_chars p t = true.
Proof.
  assert (Hflush : ∀ cur, PyStr.forall_chars p cur = true →
            t ∈ PyStr.flush cur → t ≠ "" ∧ PyStr.forall_chars p t = true).
  { intros [|c cur'] Hcur; simpl; [by intros ?%elem_of_nil|].
    intros ->%list_elem_of_singleton. split.
    - unfold String.rev. intros [? ?]%rev_app_empty. discriminate.
    - by rewrite forall_chars_rev. }
  revert cur. induction s as [|c s IH]; intros cur Hcur; simpl.
  - intros _. by apply (Hflush cur).
  - intros [Hc Hs]%andb_true_iff. destruct (PyStr.isspace c) eqn:Hsp.
    + intros [Ht|Ht]%elem_of_app; [by apply (Hflush cur)|].
      by apply (IH "").
    + apply IH; [|done]. simpl in *. by rewrite Hc.
Qed.

Lemma filter_chars_forall p s :
  PyStr.forall_chars p (PyStr.filter_chars p s) = true.
Proof.
  induction s as [|c s IH]; simpl; [done|].
  destruct (p c) eqn:Hc; simpl; [by rewrite Hc|done].
Qed.

(** The tokenizer outputs terms only. *)
Lemma tokenize_terms text t : t ∈ tokenize text → is_term t.
Proof.
  unfold tokenize, PyStr.split_ws. apply split_ws_go_tokens; [done|].
  eapply forall_chars_impl; [|apply filter_chars_forall].
  intros c. unfold letter_or_space.
  destruct (PyStr.is_lower_az c), (PyStr.isspace c); done.
Qed.

(** A string without white space is one token, is its own [strip()],
    and contains no separator that starts with a blank. *)
Lemma split_ws_go_no_space cur s :
  PyStr.forall_chars (λ c, negb (PyStr.isspace c)) s = true →
  PyStr.split_ws_go cur s = PyStr.flush (String.rev_app s cur).
Proof.
  revert cur. induction s as [|c s IH]; intros cur; simpl; [done|].
  intros [Hc Hs]%andb_true_iff. apply negb_true_iff in Hc. rewrite Hc.
  by apply IH.
Qed.

Lemma split_ws_no_space s :
  s ≠ "" →
  PyStr.forall_chars (λ c, negb (PyStr.isspace c)) s = true →
  PyStr.split_ws s = [s].
Proof.
  intros Hne Hs. unfold PyStr.split_ws. rewrite split_ws_go_no_space; [|done].
  fold (String.rev s). destruct (String.rev s) as [|c r] eqn:Hr.
  - apply rev_app_empty in Hr as [? _]. done.
  - simpl. fold (String.rev (String c r)). by rewrite <-Hr, rev_involutive.
Qed.

Lemma lstrip_no_space s :
  PyStr.forall_chars (λ c, negb (PyStr.isspace c)) s = true →
  PyStr.lstrip s = s.
Proof.
  destruct s as [|c s]; simpl; [done|].
  intros [Hc _]%andb_true_iff. apply negb_true_iff in Hc. by rewrite Hc.
Qed.

Lemma strip_no_space s :
  PyStr.forall_chars (λ c, negb (PyStr.isspace c)) s = true →
  PyStr.strip s = s.
Proof.
  intros Hs. unfold PyStr.strip, PyStr.rstrip.
  rewrite (lstrip_no_space s Hs), lstrip_no_space, rev_involutive; [done|].
  by rewrite forall_chars_rev.
Qed.

Lemma contains_no_space c sub s :
  PyStr.isspace c = true →
  PyStr.forall_chars (λ c, negb (PyStr.isspace c)) s = true →
  PyStr.contains (String c sub) s = false.
Proof.
  intros Hc. induction s as [|c' s IH]; simpl; [done|].
  intros [Hc' Hs]%andb_true_iff. apply negb_true_iff in Hc'.
  rewrite (IH Hs), orb_false_r.
  destruct (Ascii.ascii_dec c c') as [->|Hne]; [congruence|done].
Qed.

Lemma map_chars_map_chars f g s :
  PyStr.map_chars g (PyStr.map_chars f s) = PyStr.map_chars (g ∘ f) s.
Proof. induction s as [|c s IH]; simpl; [done|]. by rewrite IH. Qed.

Lemma map_chars_id p f s :
  (∀ c, p c = true → f c = c) →
  PyStr.forall_chars p s = true → PyStr.map_chars f s = s.
Proof.
  intros Hf. induction s as [|c s IH]; simpl; [done|].
  intros [Hc Hs]%andb_true_iff. by rewrite (Hf _ Hc), IH.
Qed.

Lemma forall_chars_map_chars p q f s :
  (∀ c, p c = true → q (f c) = true) →
  PyStr.forall_chars p s = true →
  PyStr.forall_chars q (PyStr.map_chars f s) = true.
Proof.
  intros Hf. induction s as [|c s IH]; simpl; [done|].
  intros [Hc Hs]%andb_true_iff. by rewrite (Hf _ Hc), IH.
Qed.

Lemma filter_chars_id p s :
  PyStr.forall_chars p s = true → PyStr.filter_chars p s = s.
Proof.
  induction s as [|c s IH]; simpl; [done|].
  intros [Hc Hs]%andb_true_iff. by rewrite Hc, IH.
Qed.

(** Facts about single characters, by enumeration. *)
Lemma lower_upper_char c :
  PyStr.is_lower_az c = true → PyStr.lower_char (PyStr.upper_char c) = c.
Proof.
  destruct c as [[] [] [] [] [] [] [] []]; vm_compute; congruence.
Qed.

Lemma upper_char_no_space c :
  PyStr.is_lower_az c = true → negb (PyStr.isspace (PyStr.upper_char c)) = true.
Proof.
  destruct c as [[] [] [] [] [] [] [] []]; vm_compute; congruence.
Qed.

Lemma lower_az_no_space c :
  PyStr.is_lower_az c = true → negb (PyStr.isspace c) = true.
Proof.
  destruct c as [[] [] [] [] [] [] [] []]; vm_compute; congruence.
Qed.

Lemma lower_az_lower_char c :
  PyStr.is_lower_az c = true → PyStr.lower_char c = c.
Proof.
  destruct c as [[] [] [] [] [] [] [] []]; vm_compute; congruence.
Qed.

(** A term is the only term of the query that consists of it. *)
Lemma query_terms_term t : is_term t → query_terms t = (AND, [t]).
Proof.
  intros [Hne Haz]. unfold query_terms.
  assert (Hsp : PyStr.forall_chars (λ c, negb (PyStr.isspace c)) t = true).
  { eapply forall_chars_impl; [apply lower_az_no_space|done]. }
  rewrite (strip_no_space t Hsp).
  assert (Hup : PyStr.forall_chars (λ c, negb (PyStr.isspace c))
                  (PyStr.upper t) = true).
  { eapply forall_chars_map_chars; [apply upper_char_no_space|done]. }
  rewrite !contains_no_space by done.
  f_equal. unfold tokenize, PyStr.lower, PyStr.upper.
  rewrite map_chars_map_chars.
  rewrite (map_chars_id PyStr.is_lower_az) by (done || apply lower_upper_char).
  rewrite filter_chars_id.
  - by apply split_ws_no_space.
  - eapply forall_chars_impl; [|exact Haz]. intros c Hc.
    unfold letter_or_space. by rewrite Hc.
Qed.

(** [split] cuts at separators only: joining the segments with the
    separator gives the string back. *)
Lemma rev_app_append s1 s2 s3 :
  String.rev_app s1 s2 +:+ s3 = String.rev_app s1 (s2 +:+ s3).
Proof.
  revert s2. induction s1 as [|c s1 IH]; intros s2; simpl; [done|].
  by rewrite IH.
Qed.

Lemma prefix_drop sep s :
  String.prefix sep s = true →
  s = sep +:+ PyStr.drop_chars (String.length sep) s
  ∧ (String.length sep ≤ String.length s)%nat.
Proof.
  revert s. induction sep as [|a sep IH]; intros s; simpl.
  - intros _. split; [by destruct s|lia].
  - destruct s as [|b s]; simpl; [done|].
    destruct (ascii_dec a b) as [->|]; [|done].
    intros [Hs Hlen]%IH. split; [|lia].
    change (String b sep +:+ ?x) with (String b (sep +:+ x)). by rewrite <-Hs.
Qed.

Lemma split_go_nonempty sep k cur s : PyStr.split_go sep k cur s ≠ [].
Proof.
  revert k cur.
  induction s as [|c s IH]; intros k cur; cbn [PyStr.split_go]; [done|].
  destruct k; [|apply IH]. destruct (String.prefix sep (String c s)); [done|].
  apply IH.
Qed.

Lemma join_cons sep x l :
  l ≠ [] → PyStr.join sep (x :: l) = x +:+ sep +:+ PyStr.join sep l.
Proof. by destruct l. Qed.

Lemma split_go_join sep k cur s :
  sep ≠ "" →
  (k ≤ String.length s)%nat →
  PyStr.join sep (PyStr.split_go sep k cur s)
  = String.rev cur +:+ PyStr.drop_chars k s.
Proof.
  intros Hsep. revert k cur.
  induction s as [|c s IH]; intros k cur Hk.
  - assert (k = 0%nat) as -> by (simpl in Hk; lia). simpl.
    by rewrite app_empty_r.
  - destruct k as [|k].
    + cbn [PyStr.split_go PyStr.drop_chars].
      destruct (String.prefix sep (String c s)) eqn:Hpre.
      * apply prefix_drop in Hpre as [Hs Hlen].
        destruct sep as [|a sep]; [done|]. simpl in Hs, Hlen.
        rewrite join_cons by apply split_go_nonempty.
        rewrite IH by (simpl; lia). cbn [String.length].
        rewrite Nat.sub_succ, Nat.sub_0_r.
        change (String.rev "") with "".
        change ("" +:+ ?x) with x. by rewrite <-Hs.
      * rewrite IH by lia. unfold String.rev.
        cbn [String.rev_app PyStr.drop_chars]. by rewrite !rev_app_append.
    + cbn [PyStr.split_go PyStr.drop_chars]. apply IH. simpl in Hk. lia.
Qed.

Lemma split_join sep s :
  sep ≠ "" → PyStr.join sep (PyStr.split sep s) = s.
Proof.
  intros Hsep. unfold PyStr.split. rewrite split_go_join by (done || lia).
  done.
Qed.

(** Without an occurrence of the separator the string is the only
    segment. *)
Lemma split_go_no_occurrence sep cur s :
  PyStr.contains sep s = false →
  PyStr.split_go sep 0 cur s = [String.rev (String.rev_app s cur)].
Proof.
  revert cur. induction s as [|c s IH]; intros cur.
  - done.
  - cbn [PyStr.contains PyStr.split_go].
    intros [Hpre Hs]%orb_false_iff. rewrite Hpre, (IH _ Hs). done.
Qed.

Lemma split_no_occurrence sep s :
  PyStr.contains sep s = false → PyStr.split sep s = [s].
Proof.
  intros Hs. unfold PyStr.split. rewrite split_go_no_occurrence by done.
  fold (String.rev s). by rewrite rev_involutive.
Qed.

End string_facts.

(** ** The loops on the posting-set view *)

Section postings_facts.

Implicit Types (m : gmap string (gset Z)) (d : Z) (t : string)
  (l : list string).

Lemma add_lookup d m t t' :
  Postings.add d m t !! t' =
  if decide (t' = t) then Some (default ∅ (m !! t) ∪ {[d]}) else m !! t'.
Proof.
  unfold Postings.add. case_decide as Ht.
  - subst. by rewrite lookup_insert_eq.
  - by rewrite lookup_insert_ne.
Qed.

Lemma discard_lookup d m t t' :
  Postings.discard d m t !! t' =
  if decide (t' = t) then discarded d (m !! t) else m !! t'.
Proof.
  unfold Postings.discard, discarded. case_decide as Ht.
  - subst. destruct (m !! t) as [ids|] eqn:Hm; [|done].
    case_decide; [by rewrite lookup_delete_eq|by rewrite lookup_insert_eq].
  - destruct (m !! t) as [ids|] eqn:Hm; [|done].
    case_decide; [by rewrite lookup_delete_ne|by rewrite lookup_insert_ne].
Qed.

Lemma discarded_idemp d o : discarded d (discarded d o) = discarded d o.
Proof.
  destruct o as [ids|]; simpl; [|done].
  case_decide as H1; simpl; [done|].
  assert (ids ∖ {[d]} ∖ {[d]} = ids ∖ {[d]}) as -> by set_solver.
  by rewrite decide_False.
Qed.

(** The loop of [add_document] in closed form. *)
Lemma foldl_add_lookup d l m t :
  foldl (Postings.add d) m l !! t =
  if decide (t ∈ l) then Some (default ∅ (m !! t) ∪ {[d]}) else m !! t.
Proof.
  revert m. induction l as [|x l IH]; intros m; cbn [foldl].
  - by rewrite decide_False by apply not_elem_of_nil.
  - rewrite IH, add_lookup.
    repeat case_decide; subst; simpl; try done;
      try (f_equal; set_solver); set_solver.
Qed.

(** The loop of [delete_document] in closed form. *)
Lemma foldl_discard_lookup d l m t :
  foldl (Postings.discard d) m l !! t =
  if decide (t ∈ l) then discarded d (m !! t) else m !! t.
Proof.
  revert m. induction l as [|x l IH]; intros m; cbn [foldl].
  - by rewrite decide_False by apply not_elem_of_nil.
  - rewrite IH, discard_lookup.
    repeat case_decide; subst; try done;
      try apply discarded_idemp; set_solver.
Qed.

(** The order in which the tokens are visited, and how often, makes no
    difference. *)
Lemma add_order d m l1 l2 :
  (∀ t, t ∈ l1 ↔ t ∈ l2) →
  foldl (Postings.add d) m l1 = foldl (Postings.add d) m l2.
Proof.
  intros Heq. apply map_eq. intros t. rewrite !foldl_add_lookup.
  destruct (decide (t ∈ l1)) as [H1|H1].
  - by rewrite decide_True by by apply Heq.
  - by rewrite decide_False by by rewrite <-Heq.
Qed.

Lemma discard_order d m l1 l2 :
  (∀ t, t ∈ l1 ↔ t ∈ l2) →
  foldl (Postings.discard d) m l1 = foldl (Postings.discard d) m l2.
Proof.
  intros Heq. apply map_eq. intros t. rewrite !foldl_discard_lookup.
  destruct (decide (t ∈ l1)) as [H1|H1].
  - by rewrite decide_True by by apply Heq.
  - by rewrite decide_False by by rewrite <-Heq.
Qed.

Lemma elem_of_token_set t text : t ∈ token_set text ↔ t ∈ tokenize text.
Proof. unfold token_set. apply elem_of_remove_dups. Qed.

End postings_facts.

(** ** Well-formed object stores and the simulation *)

Section simulation.

Implicit Types (e : engine) (d : Z) (t : string) (l : loc).

Lemma postings_lookup e t : postings e !! t = posting e t.
Proof. unfold postings, posting. apply lookup_omap. Qed.

Lemma wf_new_engine : wf new_engine.
Proof. split; intros *; simpl; by rewrite lookup_empty. Qed.

Lemma fresh_unallocated e : objects e !! fresh (dom (objects e)) = None.
Proof. apply not_elem_of_dom, is_fresh. Qed.

Lemma wf_fresh e t l :
  wf e → inverted_index e !! t = Some l → l ≠ fresh (dom (objects e)).
Proof.
  intros Hwf Ht ->. apply (wf_allocated e Hwf) in Ht as [ids Hids].
  by rewrite fresh_unallocated in Hids.
Qed.

Lemma index_token_old d e t l :
  inverted_index e !! t = Some l →
  index_token d e t = update_set (λ ids, ids ∪ {[d]}) l e.
Proof. intros Ht. unfold index_token. rewrite Ht. cbn zeta. by rewrite Ht. Qed.

Lemma index_token_new d e t :
  inverted_index e !! t = None →
  index_token d e t =
  Engine (documents e)
         (<[t := fresh (dom (objects e))]> (inverted_index e))
         (next_doc_id e)
         (<[fresh (dom (objects e)) := {[d]}]> (objects e)).
Proof.
  intros Ht. unfold index_token. rewrite Ht. cbn.
  rewrite lookup_insert_eq. unfold update_set, set_objects. cbn.
  f_equal. rewrite alter_insert_eq. f_equal. set_solver.
Qed.

(** One round of the loop of [add_document] is [Postings.add]. *)
Lemma index_token_sim d e t :
  wf e →
  wf (index_token d e t)
  ∧ postings (index_token d e t) = Postings.add d (postings e) t
  ∧ same_store e (index_token d e t).
Proof.
  intros Hwf. destruct (inverted_index e !! t) as [l|] eqn:Ht.
  - rewrite (index_token_old d e t l Ht).
    destruct (wf_allocated e Hwf t l Ht) as [ids Hids].
    split; [|split; [|done]].
    + split; cbn.
      * intros t' l' Ht'. rewrite lookup_alter_is_Some.
        by eapply wf_allocated.
      * apply (wf_unshared e Hwf).
    + apply map_eq. intros t'.
      rewrite add_lookup, !postings_lookup. unfold posting. cbn.
      case_decide as Heq.
      * subst t'. rewrite Ht. cbn. by rewrite lookup_alter_eq, Hids.
      * destruct (inverted_index e !! t') as [l'|] eqn:Ht'; [|done]. cbn.
        rewrite lookup_alter_ne; [done|].
        intros ->. apply Heq. by eapply (wf_unshared e Hwf).
  - rewrite (index_token_new d e t Ht).
    set (r := fresh (dom (objects e))).
    split; [|split; [|done]].
    + split; cbn.
      * intros t' l'. destruct (decide (t' = t)) as [->|Hne].
        -- rewrite lookup_insert_eq. intros [= <-].
           by rewrite lookup_insert_eq.
        -- rewrite lookup_insert_ne by done. intros Ht'.
           rewrite lookup_insert_ne by (symmetry; by eapply wf_fresh).
           by eapply wf_allocated.
      * intros t1 t2 l'.
        destruct (decide (t1 = t)) as [->|Hne1];
          destruct (decide (t2 = t)) as [->|Hne2]; [done|..].
        -- rewrite lookup_insert_eq, lookup_insert_ne by done.
           intros [= <-] H2. by apply (wf_fresh e _ _ Hwf) in H2.
        -- rewrite lookup_insert_eq, lookup_insert_ne by done.
           intros H1 [= <-]. by apply (wf_fresh e _ _ Hwf) in H1.
        -- rewrite !lookup_insert_ne by done. apply (wf_unshared e Hwf).
    + apply map_eq. intros t'.
      rewrite add_lookup, !postings_lookup. unfold posting. cbn.
      case_decide as Heq.
      * subst t'. rewrite Ht, lookup_insert_eq. cbn.
        rewrite lookup_insert_eq. f_equal. set_solver.
      * rewrite lookup_insert_ne by done.
        destruct (inverted_index e !! t') as [l'|] eqn:Ht'; [|done]. cbn.
        rewrite lookup_insert_ne; [done|].
        symmetry. by eapply wf_fresh.
Qed.

(** One round of the loop of [delete_document] is [Postings.discard]. *)
Lemma unindex_token_sim d e t :
  wf e →
  wf (unindex_token d e t)
  ∧ postings (unindex_token d e t) = Postings.discard d (postings e) t
  ∧ same_store e (unindex_token d e t).
Proof.
  intros Hwf. unfold unindex_token.
  destruct (inverted_index e !! t) as [l|] eqn:Ht.
  - destruct (wf_allocated e Hwf t l Ht) as [ids Hids].
    assert (Hc : content (update_set (λ ids, ids ∖ {[d]}) l e) l
                 = ids ∖ {[d]}).
    { unfold content. cbn. by rewrite lookup_alter_eq, Hids. }
    assert (Hother : ∀ t' l', t' ≠ t → inverted_index e !! t' = Some l' →
              alter (λ ids, ids ∖ {[d]}) l (objects e) !! l'
              = objects e !! l').
    { intros t' l' Hne Ht'. rewrite lookup_alter_ne; [done|].
      intros ->. apply Hne. by eapply (wf_unshared e Hwf). }
    rewrite Hc. case_decide as Hempty.
    + split; [|split; [|done]].
      * split; cbn.
        -- intros t' l' [_ Ht']%lookup_delete_Some.
           rewrite lookup_alter_is_Some. by eapply wf_allocated.
        -- intros t1 t2 l' [_ H1]%lookup_delete_Some
             [_ H2]%lookup_delete_Some.
           by eapply (wf_unshared e Hwf).
      * apply map_eq. intros t'.
        rewrite discard_lookup, !postings_lookup. unfold posting. cbn.
        case_decide as Heq.
        -- subst t'. rewrite lookup_delete_eq, Ht. cbn. rewrite Hids. cbn.
           by rewrite decide_True.
        -- rewrite lookup_delete_ne by done.
           destruct (inverted_index e !! t') as [l'|] eqn:Ht'; [|done]. cbn.
           by eapply Hother.
    + split; [|split; [|done]].
      * split; cbn.
        -- intros t' l' Ht'. rewrite lookup_alter_is_Some.
           by eapply wf_allocated.
        -- apply (wf_unshared e Hwf).
      * apply map_eq. intros t'.
        rewrite discard_lookup, !postings_lookup. unfold posting. cbn.
        case_decide as Heq.
        -- subst t'. rewrite Ht. cbn. rewrite lookup_alter_eq, Hids. cbn.
           by rewrite decide_False.
        -- destruct (inverted_index e !! t') as [l'|] eqn:Ht'; [|done]. cbn.
           by eapply Hother.
  - split; [done|]. split; [|done].
    apply map_eq. intros t'. rewrite discard_lookup.
    case_decide as Heq; [|done]. subst t'.
    rewrite !postings_lookup. unfold posting. by rewrite Ht.
Qed.

(** The two loops. *)
Lemma foldl_index_token_sim d ts e :
  wf e →
  wf (foldl (index_token d) e ts)
  ∧ postings (foldl (index_token d) e ts)
    = foldl (Postings.add d) (postings e) ts
  ∧ same_store e (foldl (index_token d) e ts).
Proof.
  revert e. induction ts as [|t ts IH]; intros e Hwf; cbn [foldl]; [done|].
  destruct (index_token_sim d e t Hwf) as (Hwf1 & Hp1 & Hd1 & Hn1).
  destruct (IH _ Hwf1) as (Hwf2 & Hp2 & Hd2 & Hn2).
  split; [done|]. split; [by rewrite Hp2, Hp1|].
  split; congruence.
Qed.

Lemma foldl_unindex_token_sim d ts e :
  wf e →
  wf (foldl (unindex_token d) e ts)
  ∧ postings (foldl (unindex_token d) e ts)
    = foldl (Postings.discard d) (postings e) ts
  ∧ same_store e (foldl (unindex_token d) e ts).
Proof.
  revert e. induction ts as [|t ts IH]; intros e Hwf; cbn [foldl]; [done|].
  destruct (unindex_token_sim d e t Hwf) as (Hwf1 & Hp1 & Hd1 & Hn1).
  destruct (IH _ Hwf1) as (Hwf2 & Hp2 & Hd2 & Hn2).
  split; [done|]. split; [by rewrite Hp2, Hp1|].
  split; congruence.
Qed.

(** Python fixes no order for the traversal of [tokens]: whatever the
    order, the loops leave the same posting sets, documents and counter
    (the addresses of new set objects may differ). *)
Lemma index_token_order d ts1 ts2 e :
  wf e → (∀ t, t ∈ ts1 ↔ t ∈ ts2) →
  postings (foldl (index_token d) e ts1)
  = postings (foldl (index_token d) e ts2)
  ∧ same_store (foldl (index_token d) e ts1) (foldl (index_token d) e ts2).
Proof.
  intros Hwf Hsame.
  destruct (foldl_index_token_sim d ts1 e Hwf) as (_ & -> & Hd1 & Hn1).
  destruct (foldl_index_token_sim d ts2 e Hwf) as (_ & -> & Hd2 & Hn2).
  split; [by apply add_order|]. split; congruence.
Qed.

Lemma unindex_token_order d ts1 ts2 e :
  wf e → (∀ t, t ∈ ts1 ↔ t ∈ ts2) →
  postings (foldl (unindex_token d) e ts1)
  = postings (foldl (unindex_token d) e ts2)
  ∧ same_store (foldl (unindex_token d) e ts1)
      (foldl (unindex_token d) e ts2).
Proof.
  intros Hwf Hsame.
  destruct (foldl_unindex_token_sim d ts1 e Hwf) as (_ & -> & Hd1 & Hn1).
  destruct (foldl_unindex_token_sim d ts2 e Hwf) as (_ & -> & Hd2 & Hn2).
  split; [by apply discard_order|]. split; congruence.
Qed.

End simulation.

(** ** The methods on well-formed engines *)

Section methods.

Implicit Types (e : engine) (d : Z) (t text : string) (l r : loc).

Lemma delete_document_absent d e :
  documents e !! d = None → delete_document d e = (false, e).
Proof. intros Hd. unfold delete_document. by rewrite Hd. Qed.

Lemma delete_document_present d e text :
  documents e !! d = Some text →
  wf e →
  (delete_document d e).1 = true
  ∧ wf (delete_document d e).2
  ∧ postings (delete_document d e).2
    = foldl (Postings.discard d) (postings e) (token_set text)
  ∧ documents (delete_document d e).2 = delete d (documents e)
  ∧ next_doc_id (delete_document d e).2 = next_doc_id e.
Proof.
  intros Hd Hwf. unfold delete_document. rewrite Hd. cbn [fst snd].
  set (e0 := set_documents (delete d (documents e)) e).
  assert (Hwf0 : wf e0) by (by destruct Hwf).
  destruct (foldl_unindex_token_sim d (token_set text) e0 Hwf0)
    as (Hwf1 & Hp & Hdocs & Hnext).
  by rewrite Hp, Hdocs, Hnext.
Qed.

Lemma add_document_sim text doc_id e :
  wf e →
  (add_document text doc_id e).1 = used_id doc_id e
  ∧ wf (add_document text doc_id e).2
  ∧ postings (add_document text doc_id e).2
    = foldl (Postings.add (used_id doc_id e))
        (postings_without (used_id doc_id e) e) (token_set text)
  ∧ documents (add_document text doc_id e).2
    = <[used_id doc_id e := text]> (documents e)
  ∧ next_doc_id (add_document text doc_id e).2 = counter_after doc_id e.
Proof.
  intros Hwf. unfold add_document.
  set (e1 := match doc_id with
             | None => set_next_doc_id (next_doc_id e + 1) e
             | Some _ => e
             end).
  assert (He1 : match doc_id with
                | None => (next_doc_id e,
                           set_next_doc_id (next_doc_id e + 1) e)
                | Some d => (d, e)
                end = (used_id doc_id e, e1)) by (by destruct doc_id).
  rewrite He1. clear He1. set (d := used_id doc_id e).
  assert (Hwf1 : wf e1) by (destruct doc_id; [done|by destruct Hwf]).
  assert (Hdocs1 : documents e1 = documents e) by (by destruct doc_id).
  assert (Hpost1 : postings e1 = postings e) by (by destruct doc_id).
  assert (Hnext1 : next_doc_id e1 = counter_after doc_id e)
    by (by destruct doc_id).
  set (e2 := if decide (is_Some (documents e1 !! d))
             then (delete_document d e1).2 else e1).
  assert (H2 : wf e2 ∧ postings e2 = postings_without d e
               ∧ documents e2 = delete d (documents e)
               ∧ next_doc_id e2 = counter_after doc_id e).
  { unfold e2, postings_without. rewrite <-Hdocs1, <-Hpost1.
    case_decide as Hin.
    - destruct Hin as [old Hold].
      destruct (delete_document_present d e1 old Hold Hwf1)
        as (_ & ? & ? & ? & ?).
      rewrite Hold. split_and!; congruence.
    - apply eq_None_not_Some in Hin. rewrite Hin.
      split_and!; try done. by rewrite delete_id. }
  destruct H2 as (Hwf2 & Hpost2 & Hdocs2 & Hnext2).
  set (e3 := set_documents (<[d := text]> (documents e2)) e2).
  assert (Hwf3 : wf e3) by (by destruct Hwf2).
  destruct (foldl_index_token_sim d (token_set text) e3 Hwf3)
    as (Hwf4 & Hp & Hdocs & Hnext).
  cbn [fst snd]. rewrite Hp, Hdocs, Hnext. unfold e3 at 2 3. cbn.
  rewrite Hdocs2, insert_delete_eq.
  split_and!; try done. by rewrite <-Hpost2.
Qed.

(** *** [search] *)

Lemma differs_at_refl r e : differs_at r e e.
Proof. done. Qed.

Lemma differs_at_trans r e1 e2 e3 :
  differs_at r e1 e2 → differs_at r e2 e3 → differs_at r e1 e3.
Proof.
  intros (? & ? & ? & H12) (? & ? & ? & H23).
  repeat split; try congruence.
  intros l Hl. by rewrite H23, H12.
Qed.

Lemma differs_at_update_set f r e : differs_at r e (update_set f r e).
Proof.
  repeat split; try done. intros l Hl. cbn. by rewrite lookup_alter_ne.
Qed.

Lemma differs_at_foldl (body : engine → string → engine) r terms e :
  (∀ e t, differs_at r e (body e t)) →
  differs_at r e (foldl body e terms).
Proof.
  intros Hbody. revert e.
  induction terms as [|t terms IH]; intros e; cbn [foldl].
  - apply differs_at_refl.
  - eapply differs_at_trans; [apply Hbody|apply IH].
Qed.

Lemma content_update_set f r e :
  content (update_set f r e) r =
  match objects e !! r with Some ids => f ids | None => ∅ end.
Proof.
  unfold content. cbn. rewrite lookup_alter_eq.
  by destruct (objects e !! r).
Qed.

(** An intersection only shrinks [result_set], a union only grows it. *)
Lemma content_intersect r terms e :
  content (foldl (intersect_term r) e terms) r ⊆ content e r.
Proof.
  revert e. induction terms as [|t terms IH]; intros e; cbn [foldl];
    [done|].
  etrans; [apply IH|]. unfold intersect_term.
  rewrite content_update_set. unfold content.
  destruct (objects e !! r); set_solver.
Qed.

Lemma content_union r terms e :
  content e r ⊆ content (foldl (union_term r) e terms) r.
Proof.
  revert e. induction terms as [|t terms IH]; intros e; cbn [foldl];
    [done|].
  etrans; [|apply IH]. unfold union_term.
  rewrite content_update_set. unfold content.
  destruct (objects e !! r); set_solver.
Qed.

(** The state that the evaluation of a non-empty list of terms leaves. *)
Lemma evaluate_differs op terms e :
  differs_at (fresh (dom (objects e))) e (evaluate op terms e).2.
Proof.
  destruct terms as [|first_term rest]; [apply differs_at_refl|].
  unfold evaluate. cbn [snd].
  set (r := fresh (dom (objects e))).
  eapply differs_at_trans.
  2: { destruct op; apply differs_at_foldl; intros e' t;
         apply differs_at_update_set. }
  repeat split; try done. intros l Hl. cbn. by rewrite lookup_insert_ne.
Qed.

Lemma evaluate_frame op terms e :
  documents (evaluate op terms e).2 = documents e
  ∧ inverted_index (evaluate op terms e).2 = inverted_index e
  ∧ next_doc_id (evaluate op terms e).2 = next_doc_id e
  ∧ objects e ⊆ objects (evaluate op terms e).2.
Proof.
  destruct (evaluate_differs op terms e) as (Hd & Hi & Hn & Ho).
  repeat split; try done.
  apply map_subseteq_spec. intros l ids Hl. rewrite Ho; [done|].
  intros ->. by rewrite fresh_unallocated in Hl.
Qed.

Lemma search_frame query e :
  documents (search query e).2 = documents e
  ∧ inverted_index (search query e).2 = inverted_index e
  ∧ next_doc_id (search query e).2 = next_doc_id e
  ∧ objects e ⊆ objects (search query e).2.
Proof.
  unfold search. destruct (query_terms query) as [op terms].
  apply evaluate_frame.
Qed.

Lemma frame_postings e e' :
  inverted_index e' = inverted_index e →
  objects e ⊆ objects e' →
  postings e ⊆ postings e'.
Proof.
  intros Hi Ho. apply map_subseteq_spec. intros t ids.
  rewrite !postings_lookup. unfold posting. rewrite Hi.
  destruct (inverted_index e !! t) as [l|]; [|done]. cbn.
  intros Hl. by eapply lookup_weaken.
Qed.

Lemma frame_wf e e' :
  inverted_index e' = inverted_index e →
  objects e ⊆ objects e' →
  wf e → wf e' ∧ postings e' = postings e.
Proof.
  intros Hi Ho Hwf. split; [split|].
  - intros t l. rewrite Hi. intros [ids Hids]%(wf_allocated e Hwf).
    exists ids. by eapply lookup_weaken.
  - rewrite Hi. apply (wf_unshared e Hwf).
  - apply map_eq. intros t. rewrite !postings_lookup. unfold posting.
    rewrite Hi. destruct (inverted_index e !! t) as [l|] eqn:Ht; [|done].
    cbn. destruct (wf_allocated e Hwf t l Ht) as [ids Hids].
    rewrite Hids. by eapply lookup_weaken.
Qed.

(** The comprehension: the documents whose identifier is in
    [result_set]. *)
Lemma found_documents_lookup result_set docs d :
  found_documents result_set docs !! d =
  if decide (d ∈ result_set) then docs !! d else None.
Proof.
  unfold found_documents.
  assert (Hgen : ∀ (ids : list Z),
    list_to_map (M := gmap Z string)
      (omap (λ doc_id, (λ text, (doc_id, text)) <$> docs !! doc_id) ids)
    !! d = if decide (d ∈ ids) then docs !! d else None).
  { induction ids as [|x ids IH]; cbn.
    - by rewrite decide_False by apply not_elem_of_nil.
    - destruct (docs !! x) as [text|] eqn:Hx; cbn.
      + destruct (decide (d = x)) as [->|Hne].
        * rewrite lookup_insert_eq, decide_True by left. done.
        * rewrite lookup_insert_ne, IH by done.
          repeat case_decide; set_solver.
      + rewrite IH. repeat case_decide; try done; set_solver. }
  rewrite Hgen. repeat case_decide; set_solver.
Qed.

End methods.

(** ** The invariants *)

Section invariants.

Implicit Types (e : engine) (d : Z) (t text : string).

Lemma in_posting_alt e t d :
  in_posting e t d ↔ ∃ ids, postings e !! t = Some ids ∧ d ∈ ids.
Proof. unfold in_posting. by setoid_rewrite postings_lookup. Qed.

Lemma member_discard d ts (m : gmap string (gset Z)) t d' :
  (∃ ids, foldl (Postings.discard d) m ts !! t = Some ids ∧ d' ∈ ids) ↔
  (∃ ids, m !! t = Some ids ∧ d' ∈ ids) ∧ ¬ (t ∈ ts ∧ d' = d).
Proof.
  rewrite foldl_discard_lookup. unfold discarded.
  destruct (m !! t) as [ids|]; repeat case_decide; naive_solver set_solver.
Qed.

Lemma member_add d ts (m : gmap string (gset Z)) t d' :
  (∃ ids, foldl (Postings.add d) m ts !! t = Some ids ∧ d' ∈ ids) ↔
  (∃ ids, m !! t = Some ids ∧ d' ∈ ids) ∨ (t ∈ ts ∧ d' = d).
Proof.
  rewrite foldl_add_lookup.
  destruct (m !! t) as [ids|]; case_decide; cbn; naive_solver set_solver.
Qed.

Lemma no_empty_discard d ts (m : gmap string (gset Z)) :
  (∀ t ids, m !! t = Some ids → ids ≠ ∅) →
  ∀ t ids, foldl (Postings.discard d) m ts !! t = Some ids → ids ≠ ∅.
Proof.
  intros Hm t ids. rewrite foldl_discard_lookup. unfold discarded.
  case_decide; [|apply Hm].
  destruct (m !! t); [|done]. case_decide; [done|]. by intros [= <-].
Qed.

Lemma no_empty_add d ts (m : gmap string (gset Z)) :
  (∀ t ids, m !! t = Some ids → ids ≠ ∅) →
  ∀ t ids, foldl (Postings.add d) m ts !! t = Some ids → ids ≠ ∅.
Proof.
  intros Hm t ids. rewrite foldl_add_lookup.
  case_decide; [|apply Hm]. intros [= <-]. set_solver.
Qed.

Lemma invariant_new_engine : invariant new_engine.
Proof.
  split; [apply wf_new_engine|..].
  - intros t d. split.
    + intros (ids & H & _). unfold posting in H. cbn in H.
      by rewrite lookup_empty in H.
    + intros (text & H & _). cbn in H. by rewrite lookup_empty in H.
  - intros t ids H. unfold posting in H. cbn in H.
    by rewrite lookup_empty in H.
Qed.

Lemma invariant_delete d e :
  invariant e → invariant (delete_document d e).2.
Proof.
  intros [Hwf H1 H2]. destruct (documents e !! d) as [text|] eqn:Hd.
  2: { by rewrite delete_document_absent. }
  destruct (delete_document_present d e text Hd Hwf)
    as (_ & Hwf' & Hp & Hdocs & _).
  split; [done|..].
  - intros t d'. rewrite in_posting_alt, Hp, member_discard.
    rewrite <-in_posting_alt, (H1 t d'). unfold in_document.
    rewrite Hdocs, elem_of_token_set. split.
    + intros [(text' & Hd' & Ht) Hnot]. exists text'. split; [|done].
      rewrite lookup_delete_ne; [done|]. intros <-. simplify_eq.
      by apply Hnot.
    + intros (text' & [Hne Hd']%lookup_delete_Some & Ht).
      split; [by exists text'|]. by intros [_ ->].
  - intros t ids. rewrite <-postings_lookup, Hp. apply no_empty_discard.
    intros t' ids'. rewrite postings_lookup. apply H2.
Qed.

Lemma invariant_add text doc_id e :
  invariant e → invariant (add_document text doc_id e).2.
Proof.
  intros Hinv.
  destruct (add_document_sim text doc_id e (inv_wf e Hinv))
    as (_ & Hwf' & Hp & Hdocs & _).
  set (d := used_id doc_id e) in *.
  (* the engine once the former document of [d] is gone *)
  assert (Hwithout :
    (∀ t d', (∃ ids, postings_without d e !! t = Some ids ∧ d' ∈ ids) ↔
             (∃ text', delete d (documents e) !! d' = Some text'
                       ∧ t ∈ tokenize text'))
    ∧ (∀ t ids, postings_without d e !! t = Some ids → ids ≠ ∅)).
  { pose proof (invariant_delete d e Hinv) as [Hwf0 H10 H20].
    unfold postings_without.
    destruct (documents e !! d) as [old|] eqn:Hold.
    - destruct (delete_document_present d e old Hold (inv_wf e Hinv))
        as (_ & _ & Hp0 & Hdocs0 & _).
      rewrite <-Hp0, <-Hdocs0. split.
      + intros t d'. rewrite <-in_posting_alt. apply H10.
      + intros t ids. rewrite postings_lookup. apply H20.
    - rewrite delete_id by done. destruct Hinv as [_ H1 H2]. split.
      + intros t d'. rewrite <-in_posting_alt. apply H1.
      + intros t ids. rewrite postings_lookup. apply H2. }
  destruct Hwithout as [H1 H2].
  split; [done|..].
  - intros t d'. rewrite in_posting_alt, Hp, member_add, H1.
    unfold in_document. rewrite Hdocs, elem_of_token_set. split.
    + intros [(text' & [Hne Hd']%lookup_delete_Some & Ht)|[Ht ->]].
      * exists text'. by rewrite lookup_insert_ne.
      * exists text. by rewrite lookup_insert_eq.
    + intros (text' & Hd' & Ht).
      destruct (decide (d' = d)) as [->|Hne].
      * rewrite lookup_insert_eq in Hd'. simplify_eq. by right.
      * rewrite lookup_insert_ne in Hd' by done. left. exists text'.
        by rewrite lookup_delete_ne.
  - intros t ids. rewrite <-postings_lookup, Hp. by apply no_empty_add.
Qed.

Lemma invariant_search query e :
  invariant e → invariant (search query e).2.
Proof.
  intros [Hwf H1 H2].
  destruct (search_frame query e) as (Hd & Hi & _ & Ho).
  destruct (frame_wf e _ Hi Ho Hwf) as [Hwf' Hp].
  split; [done|..].
  - intros t d. rewrite in_posting_alt, Hp, <-in_posting_alt, (H1 t d).
    unfold in_document. by rewrite Hd.
  - intros t ids. rewrite <-postings_lookup, Hp, postings_lookup.
    apply H2.
Qed.

Lemma invariant_step e c : invariant e → invariant (step e c).
Proof.
  destruct c; cbn.
  - apply invariant_add.
  - apply invariant_delete.
  - apply invariant_search.
Qed.

(** Every state that calls can reach satisfies the invariant. *)
Lemma invariant_run calls : invariant (run calls).
Proof.
  unfold run. induction calls as [|c calls IH] using rev_ind.
  - apply invariant_new_engine.
  - rewrite foldl_snoc. by apply invariant_step.
Qed.

End invariants.

(** ** The properties of the specification *)

(** *** Explicit operators (C1) *)

(** C1, as stated, fails: in "dog and cat" the operator is detected, the
    original query has no " AND " to split on, so the claim gives the
    single term "dog and cat"; the code gives "dog" and "cat", and the
    search finds document 2 of the demonstration, which no single literal
    term "dog and cat" could. *)
Lemma C1_lowercase_operator_splits :
  PyStr.contains " AND " (PyStr.upper (PyStr.strip "dog and cat")) = true
  ∧ spec_query_terms "dog and cat" = (AND, ["dog and cat"])
  ∧ query_terms "dog and cat" = (AND, ["dog"; "cat"])
  ∧ dom (search "dog and cat" (run demo)).1 = {[2%Z]}
  ∧ (evaluate AND ["dog and cat"] (run demo)).1 = ∅.
Proof. vm_compute. split_and!; reflexivity. Qed.

(** C1, amended: when " AND " occurs in the trimmed, uppercased query,
    [search] splits that trimmed, uppercased query on the separator and
    evaluates, with AND, the list that has one term per segment, the
    segment trimmed and lowercased and not tokenized; the same with OR
    when " OR " occurs and " AND " does not.  A segment of several words
    stays one term, and the operator may be written in any case: "dog and
    cat" has the two terms "dog" and "cat". *)
Theorem C1_explicit_operator_terms (query : string) (e : engine) :
  let q := PyStr.upper (PyStr.strip query) in
  (PyStr.contains " AND " q = true →
     query_terms query = (AND, map segment_term (PyStr.split " AND " q))
     ∧ search query e
       = evaluate AND (map segment_term (PyStr.split " AND " q)) e
     ∧ length (query_terms query).2 = length (PyStr.split " AND " q))
  ∧ (PyStr.contains " AND " q = false → PyStr.contains " OR " q = true →
     query_terms query = (OR, map segment_term (PyStr.split " OR " q))
     ∧ search query e
       = evaluate OR (map segment_term (PyStr.split " OR " q)) e
     ∧ length (query_terms query).2 = length (PyStr.split " OR " q))
  ∧ query_terms "quick brown AND fox" = (AND, ["quick brown"; "fox"])
  ∧ query_terms "dog and cat" = (AND, ["dog"; "cat"]).
Proof.
  cbn zeta. split_and!.
  - intros Hand. unfold search, query_terms. rewrite Hand. cbn [snd].
    by rewrite length_map.
  - intros Hand Hor. unfold search, query_terms. rewrite Hand, Hor.
    cbn [snd]. by rewrite length_map.
  - reflexivity.
  - reflexivity.
Qed.

Lemma C1_explicit_operator_terms_witness :
  search "Dog AND Cat" (run demo) = evaluate AND ["dog"; "cat"] (run demo)
  ∧ search "fox or  cat" (run demo) = evaluate OR ["fox"; "cat"] (run demo).
Proof.
  split.
  - exact (proj1 (proj2 (proj1
      (C1_explicit_operator_terms "Dog AND Cat" (run demo)) eq_refl))).
  - exact (proj1 (proj2 (proj1 (proj2
      (C1_explicit_operator_terms "fox or  cat" (run demo)))
      eq_refl eq_refl))).
Defined.

(** *** Automatic identifiers (C2) *)

Lemma keys_below_step e c :
  wf e → keys_below e → call_below e c = true → keys_below (step e c).
Proof.
  intros Hwf Hkeys Hc d. destruct c as [text doc_id|d0|query]; cbn.
  - destruct (add_document_sim text doc_id e Hwf) as (_ & _ & _ & -> & ->).
    destruct doc_id as [d0|]; cbn in *.
    + apply bool_decide_eq_true in Hc.
      destruct (decide (d = d0)) as [->|Hne]; [done|].
      rewrite lookup_insert_ne by done. apply Hkeys.
    + destruct (decide (d = next_doc_id e)) as [->|Hne]; [lia|].
      rewrite lookup_insert_ne by done. intros ?%Hkeys. lia.
  - destruct (documents e !! d0) as [text|] eqn:Hd0.
    + destruct (delete_document_present d0 e text Hd0 Hwf)
        as (_ & _ & _ & -> & ->).
      intros [text' [_ Hd]%lookup_delete_Some]. by apply Hkeys.
    + rewrite delete_document_absent by done. apply Hkeys.
  - destruct (search_frame query e) as (-> & _ & -> & _). apply Hkeys.
Qed.

Lemma keys_below_foldl calls e :
  invariant e → keys_below e → below_counter e calls = true →
  keys_below (foldl step e calls).
Proof.
  revert e. induction calls as [|c calls IH]; intros e Hinv Hkeys; cbn;
    [done|].
  intros [Hc Hcalls]%andb_true_iff. apply IH; [|..|done].
  - by apply invariant_step.
  - apply keys_below_step; [apply Hinv|done..].
Qed.

(** C2, as stated, fails: after [add_document(t, doc_id=0)] on a new
    engine the counter is still 0, so the next automatic identifier is 0,
    a key of the store; the second document replaces the first. *)
Lemma C2_auto_id_collides :
  let e := run [AddDocument "first" (Some 0%Z)] in
  (add_document "second" None e).1 = 0%Z
  ∧ documents e !! (add_document "second" None e).1 = Some "first"
  ∧ documents (add_document "second" None e).2 = {[ 0%Z := "second" ]}.
Proof. vm_compute. split_and!; reflexivity. Qed.

(** C2, amended: in every sequence of calls whose explicit identifiers
    are, each at the time of its call, below the counter (so in every
    sequence without explicit identifiers), the identifier that
    [add_document] assigns by itself is not a key of the store when it is
    assigned. *)
Theorem C2_auto_id_fresh (calls : list call) (text : string) :
  below_counter new_engine calls = true →
  (add_document text None (run calls)).1 = next_doc_id (run calls)
  ∧ documents (run calls) !! (add_document text None (run calls)).1 = None.
Proof.
  intros Hbelow.
  destruct (add_document_sim text None (run calls)
              (inv_wf _ (invariant_run calls))) as (-> & _).
  split; [done|]. cbn.
  assert (Hkeys : keys_below (run calls)).
  { apply keys_below_foldl; [apply invariant_new_engine| |done].
    intros d [text' Hd]. cbn in Hd. by rewrite lookup_empty in Hd. }
  apply eq_None_not_Some. intros Hin%Hkeys. lia.
Qed.

Lemma C2_auto_id_fresh_witness :
  let calls := [ AddDocument "a b" None; AddDocument "c" (Some 0%Z);
                 AddDocument "d" (Some (-4)%Z); DeleteDocument 0%Z;
                 AddDocument "e" None ] in
  below_counter new_engine calls = true
  ∧ (add_document "f" None (run calls)).1 = next_doc_id (run calls)
  ∧ documents (run calls) !! (add_document "f" None (run calls)).1 = None.
Proof.
  cbn zeta. split; [vm_compute; reflexivity|].
  apply C2_auto_id_fresh. vm_compute. reflexivity.
Defined.

(** *** Index and store agree (C3) *)

(** C3: in every state that a sequence of [add_document],
    [delete_document] and [search] calls reaches from a new engine, [d]
    is in the posting set of [t] if and only if [t] is among the tokens
    of the stored text of [d]. *)
Theorem C3_index_matches_documents (calls : list call) (t : string) (d : Z) :
  in_posting (run calls) t d ↔ in_document (run calls) t d.
Proof. apply (inv_I1 _ (invariant_run calls)). Qed.

(** *** Adding twice under one identifier (C4) *)

Lemma run_snoc calls c : run (calls ++ [c]) = step (run calls) c.
Proof. unfold run. apply foldl_snoc. Qed.

(** C4: after [add_document(T, D)] and then [add_document(T2, D)], in
    any reachable state, the store has [T2] under [D], and [D] is in the
    posting set of exactly the tokens of [T2]. *)
Theorem C4_readd_replaces (calls : list call) (T T2 : string) (D : Z) :
  let e := (add_document T2 (Some D)
              (add_document T (Some D) (run calls)).2).2 in
  documents e !! D = Some T2
  ∧ ∀ t, in_posting e t D ↔ t ∈ tokenize T2.
Proof.
  cbn zeta.
  set (e1 := (add_document T (Some D) (run calls)).2).
  assert (He1 : e1 = run (calls ++ [AddDocument T (Some D)]))
    by (by rewrite run_snoc).
  assert (He2 : (add_document T2 (Some D) e1).2
                = run ((calls ++ [AddDocument T (Some D)])
                       ++ [AddDocument T2 (Some D)]))
    by (by rewrite run_snoc, <-He1).
  assert (Hdoc : documents (add_document T2 (Some D) e1).2 !! D = Some T2).
  { rewrite He1.
    destruct (add_document_sim T2 (Some D) _
                (inv_wf _ (invariant_run (calls ++ [AddDocument T (Some D)]))))
      as (_ & _ & _ & -> & _).
    apply lookup_insert_eq. }
  split; [done|]. intros t.
  rewrite He2, (inv_I1 _ (invariant_run _) t D), <-He2.
  unfold in_document. rewrite Hdoc. naive_solver.
Qed.

(** *** Round trip (C5) *)

Lemma search_term w e :
  is_term w →
  (search w e).1 = found_documents (default ∅ (posting e w)) (documents e).
Proof.
  intros Hw. unfold search. rewrite (query_terms_term w Hw).
  unfold evaluate. cbn [fst foldl]. unfold content. cbn.
  by rewrite lookup_insert_eq.
Qed.

(** C5: right after [add_document(T, D)], in any reachable state, the
    search for a token [w] of [T] returns a mapping with [T] under [D]. *)
Theorem C5_round_trip (calls : list call) (T : string) (D : Z) (w : string) :
  w ∈ tokenize T →
  (search w (add_document T (Some D) (run calls)).2).1 !! D = Some T.
Proof.
  intros Hw.
  assert (He : (add_document T (Some D) (run calls)).2
               = run (calls ++ [AddDocument T (Some D)]))
    by (by rewrite run_snoc).
  assert (Hdoc : documents (add_document T (Some D) (run calls)).2 !! D
                 = Some T).
  { destruct (add_document_sim T (Some D) _ (inv_wf _ (invariant_run calls)))
      as (_ & _ & _ & -> & _).
    apply lookup_insert_eq. }
  rewrite search_term by (by eapply tokenize_terms).
  rewrite found_documents_lookup, Hdoc.
  rewrite decide_True; [done|].
  assert (Hin : in_posting (add_document T (Some D) (run calls)).2 w D).
  { rewrite He. apply (inv_I1 _ (invariant_run _)). rewrite <-He.
    by exists T. }
  destruct Hin as (ids & -> & Hin). done.
Qed.

Lemma C5_round_trip_witness :
  "lazy" ∈ tokenize "The fox is having a lazy day, but the cat is awake."
  ∧ (search "lazy"
       (add_document "The fox is having a lazy day, but the cat is awake."
          (Some 3%Z) (run (take 2 demo))).2).1 !! 3%Z
    = Some "The fox is having a lazy day, but the cat is awake.".
Proof.
  assert (H : "lazy" ∈ tokenize
                "The fox is having a lazy day, but the cat is awake.").
  { vm_compute. do 5 right. left. }
  split; [exact H|]. exact (C5_round_trip _ _ _ _ H).
Defined.

(** *** No empty posting set (C6) *)

(** C6: in every reachable state every key of the index has a posting
    set, and it is not empty; and [delete_document] removes the key of a
    token of the deleted document when the posting set without the
    deleted identifier is empty. *)
Theorem C6_no_empty_posting_set (calls : list call) :
  (∀ t, is_Some (inverted_index (run calls) !! t) →
        ∃ ids, posting (run calls) t = Some ids ∧ ids ≠ ∅)
  ∧ (∀ d text t ids,
       documents (run calls) !! d = Some text →
       t ∈ tokenize text →
       posting (run calls) t = Some ids →
       ids ∖ {[d]} = ∅ →
       (delete_document d (run calls)).1 = true
       ∧ inverted_index (delete_document d (run calls)).2 !! t = None).
Proof.
  pose proof (invariant_run calls) as [Hwf H1 H2]. split.
  - intros t [l Hl]. destruct (wf_allocated _ Hwf t l Hl) as [ids Hids].
    assert (Hp : posting (run calls) t = Some ids).
    { unfold posting. by rewrite Hl. }
    exists ids. split; [done|]. by eapply H2.
  - intros d text t ids Hd Ht Hp Hempty.
    destruct (delete_document_present d _ text Hd Hwf)
      as (Hret & Hwf' & Hp' & _).
    split; [done|].
    assert (Hnone : postings (delete_document d (run calls)).2 !! t = None).
    { rewrite Hp', foldl_discard_lookup, postings_lookup, Hp.
      rewrite decide_True by (by apply elem_of_token_set).
      cbn. by rewrite decide_True. }
    destruct (inverted_index (delete_document d (run calls)).2 !! t)
      as [l|] eqn:Hl; [|done].
    destruct (wf_allocated _ Hwf' t l Hl) as [ids' Hids'].
    rewrite postings_lookup in Hnone. unfold posting in Hnone.
    rewrite Hl in Hnone. cbn in Hnone. congruence.
Qed.

Lemma C6_no_empty_posting_set_witness :
  (∃ ids, posting (run demo) "fox" = Some ids ∧ ids ≠ ∅)
  ∧ (delete_document 1%Z (run demo)).1 = true
  ∧ inverted_index (delete_document 1%Z (run demo)).2 !! "quick" = None.
Proof.
  split.
  - apply (proj1 (C6_no_empty_posting_set demo) "fox").
    vm_compute. eexists. reflexivity.
  - apply (proj2 (C6_no_empty_posting_set demo) 1%Z
             "The quick brown fox jumps over the lazy dog." "quick" {[1%Z]}).
    + vm_compute. reflexivity.
    + vm_compute. right. left.
    + vm_compute. reflexivity.
    + vm_compute. reflexivity.
Defined.

(** *** Deleting what is not there (C7) *)

(** C7: for every engine and every identifier that is not a key of the
    store, [delete_document] returns [False] and the engine is as
    before. *)
Theorem C7_delete_absent (e : engine) (d : Z) :
  documents e !! d = None → delete_document d e = (false, e).
Proof. apply delete_document_absent. Qed.

Lemma C7_delete_absent_witness :
  documents (run demo) !! 7%Z = None
  ∧ delete_document 7%Z (run demo) = (false, run demo).
Proof.
  assert (H : documents (run demo) !! 7%Z = None)
    by (vm_compute; reflexivity).
  split; [exact H|]. exact (C7_delete_absent _ _ H).
Defined.

(** *** AND within OR (C8) *)

(** C8: for every engine and every list of terms, every document that
    the evaluation with AND returns is returned, with the same text, by
    the evaluation with OR; so the identifiers of the first are among
    the identifiers of the second. *)
Theorem C8_and_subset_or (e : engine) (terms : list string) :
  (evaluate AND terms e).1 ⊆ (evaluate OR terms e).1
  ∧ dom (evaluate AND terms e).1 ⊆ dom (evaluate OR terms e).1.
Proof.
  assert (Hsub : (evaluate AND terms e).1 ⊆ (evaluate OR terms e).1).
  { destruct terms as [|first_term rest]; [done|].
    unfold evaluate. cbn [fst].
    set (r := fresh (dom (objects e))).
    set (e0 := set_objects _ e).
    assert (Hand : differs_at r e0 (foldl (intersect_term r) e0 rest)).
    { apply differs_at_foldl. intros ??. apply differs_at_update_set. }
    assert (Hor : differs_at r e0 (foldl (union_term r) e0 rest)).
    { apply differs_at_foldl. intros ??. apply differs_at_update_set. }
    destruct Hand as (-> & _), Hor as (-> & _).
    apply map_subseteq_spec. intros d text.
    rewrite !found_documents_lookup.
    pose proof (content_intersect r rest e0).
    pose proof (content_union r rest e0).
    repeat case_decide; try done. set_solver. }
  split; [done|]. by apply subseteq_dom.
Qed.

(** *** [search] changes nothing (C9) *)

(** C9: for every query and every engine, the engine after [search] has
    the store, the index and the counter of the engine before, and every
    set object that existed before the call has its content of before;
    in every reachable state the posting sets after the call are those of
    before.  (The only change is the new object [result_set].) *)
Theorem C9_search_read_only (query : string) :
  (∀ e, documents (search query e).2 = documents e
        ∧ inverted_index (search query e).2 = inverted_index e
        ∧ next_doc_id (search query e).2 = next_doc_id e
        ∧ objects e ⊆ objects (search query e).2
        ∧ postings e ⊆ postings (search query e).2)
  ∧ (∀ calls, postings (search query (run calls)).2 = postings (run calls)).
Proof.
  split.
  - intros e. destruct (search_frame query e) as (Hd & Hi & Hn & Ho).
    split_and!; try done. by apply frame_postings.
  - intros calls.
    destruct (search_frame query (run calls)) as (_ & Hi & _ & Ho).
    by destruct (frame_wf _ _ Hi Ho (inv_wf _ (invariant_run calls))).
Qed.

(** *** The keys of the index are terms (C10) *)

(** C10: in every reachable state every key of the index is a term
    (non-empty, letters [a]-[z] only); so a string with a character
    outside [a]-[z] is no key of the index. *)
Theorem C10_index_keys_are_terms (calls : list call) :
  (∀ t, is_Some (inverted_index (run calls) !! t) → is_term t)
  ∧ (∀ segment,
       PyStr.forall_chars PyStr.is_lower_az segment = false →
       inverted_index (run calls) !! segment = None
       ∧ posting (run calls) segment = None).
Proof.
  pose proof (invariant_run calls) as [Hwf H1 H2].
  assert (Hkeys : ∀ t, is_Some (inverted_index (run calls) !! t) → is_term t).
  { intros t [l Hl]. destruct (wf_allocated _ Hwf t l Hl) as [ids Hids].
    assert (Hp : posting (run calls) t = Some ids).
    { unfold posting. by rewrite Hl. }
    destruct (set_choose_L ids (H2 t ids Hp)) as [d Hd].
    destruct (proj1 (H1 t d)) as (text & _ & Ht); [by exists ids|].
    by eapply tokenize_terms. }
  split; [done|]. intros segment Hseg.
  assert (Hnone : inverted_index (run calls) !! segment = None).
  { apply eq_None_not_Some. intros [_ Haz]%Hkeys. congruence. }
  split; [done|]. unfold posting. by rewrite Hnone.
Qed.

Lemma C10_index_keys_are_terms_witness :
  is_term "garden"
  ∧ inverted_index (run demo) !! "quick brown" = None
  ∧ posting (run demo) "quick brown" = None.
Proof.
  split.
  - apply (proj1 (C10_index_keys_are_terms demo) "garden").
    vm_compute. eexists. reflexivity.
  - apply (proj2 (C10_index_keys_are_terms demo) "quick brown").
    vm_compute. reflexivity.
Defined.

(** ** More about the tokenizer and the analysis of queries *)

Section tokenizer_facts.

Implicit Types (c : ascii) (s a b ws : string) (p : ascii → bool).

Lemma append_cons c a b : String c a +:+ b = String c (a +:+ b).
Proof. reflexivity. Qed.

Lemma map_chars_ext f g s :
  (∀ c, f c = g c) → PyStr.map_chars f s = PyStr.map_chars g s.
Proof.
  intros Hfg. induction s as [|c s IH]; simpl; [done|]. by rewrite Hfg, IH.
Qed.

Lemma map_chars_app f a b :
  PyStr.map_chars f (a +:+ b) = PyStr.map_chars f a +:+ PyStr.map_chars f b.
Proof.
  induction a as [|c a IH]; [done|].
  rewrite append_cons. simpl. by rewrite IH.
Qed.

Lemma filter_chars_app p a b :
  PyStr.filter_chars p (a +:+ b)
  = PyStr.filter_chars p a +:+ PyStr.filter_chars p b.
Proof.
  induction a as [|c a IH]; [done|].
  rewrite append_cons. simpl. destruct (p c); by rewrite IH.
Qed.

Lemma forall_chars_app p a b :
  PyStr.forall_chars p (a +:+ b)
  = PyStr.forall_chars p a && PyStr.forall_chars p b.
Proof.
  induction a as [|c a IH]; [done|].
  rewrite append_cons. simpl. rewrite IH. by rewrite andb_assoc.
Qed.

(** Characters, by enumeration. *)
Lemma lower_upper_char_any c :
  PyStr.lower_char (PyStr.upper_char c) = PyStr.lower_char c.
Proof. destruct c as [[] [] [] [] [] [] [] []]; reflexivity. Qed.



Lemma lower_lower_char c :
  PyStr.lower_char (PyStr.lower_char c) = PyStr.lower_char c.
Proof. destruct c as [[] [] [] [] [] [] [] []]; reflexivity. Qed.


Lemma isspace_lower_char c :
  PyStr.isspace (PyStr.lower_char c) = PyStr.isspace c.
Proof. destruct c as [[] [] [] [] [] [] [] []]; reflexivity. Qed.


Lemma lower_az_lower_char_letter c :
  PyStr.is_lower_az (PyStr.lower_char c) = is_letter c.
Proof. destruct c as [[] [] [] [] [] [] [] []]; reflexivity. Qed.

Lemma isspace_not_letter c : PyStr.isspace c = true → is_letter c = false.
Proof. destruct c as [[] [] [] [] [] [] [] []]; vm_compute; congruence. Qed.

Lemma lower_upper s : PyStr.lower (PyStr.upper s) = PyStr.lower s.
Proof.
  unfold PyStr.lower, PyStr.upper. rewrite map_chars_map_chars.
  apply map_chars_ext, lower_upper_char_any.
Qed.

Lemma lower_lower s : PyStr.lower (PyStr.lower s) = PyStr.lower s.
Proof.
  unfold PyStr.lower. rewrite map_chars_map_chars.
  apply map_chars_ext, lower_lower_char.
Qed.



Lemma tokenize_upper s : tokenize (PyStr.upper s) = tokenize s.
Proof. unfold tokenize. by rewrite lower_upper. Qed.

Lemma tokenize_lower s : tokenize (PyStr.lower s) = tokenize s.
Proof. unfold tokenize. by rewrite lower_lower. Qed.

(** White space between two texts separates their tokens. *)
Lemma split_ws_go_app_space cur a c b :
  PyStr.isspace c = true →
  PyStr.split_ws_go cur (a +:+ String c b)
  = (PyStr.split_ws_go cur a ++ PyStr.split_ws_go "" b)%list.
Proof.
  intros Hc. revert cur. induction a as [|x a IH]; intros cur.
  - change ("" +:+ String c b) with (String c b). simpl. by rewrite Hc.
  - rewrite append_cons. simpl. destruct (PyStr.isspace x).
    + by rewrite IH, (assoc (++)).
    + apply IH.
Qed.

Lemma tokenize_app_space a c b :
  PyStr.isspace c = true →
  tokenize (a +:+ String c b) = (tokenize a ++ tokenize b)%list.
Proof.
  intros Hc. unfold tokenize, PyStr.lower, PyStr.split_ws.
  rewrite map_chars_app. cbn [PyStr.map_chars].
  rewrite filter_chars_app. cbn [PyStr.filter_chars].
  assert (Hl : PyStr.isspace (PyStr.lower_char c) = true)
    by (by rewrite isspace_lower_char).
  unfold letter_or_space at 2. rewrite Hl, orb_true_r.
  by apply split_ws_go_app_space.
Qed.

(** A text has no token exactly when it has no letter. *)
Lemma split_ws_go_nil cur s :
  PyStr.split_ws_go cur s = [] ↔
  cur = "" ∧ PyStr.forall_chars PyStr.isspace s = true.
Proof.
  revert cur. induction s as [|c s IH]; intros cur; simpl.
  - destruct cur; naive_solver.
  - destruct (PyStr.isspace c); simpl.
    + rewrite app_nil, IH. destruct cur; naive_solver.
    + rewrite IH. naive_solver.
Qed.

Lemma tokenize_nil s :
  tokenize s = [] ↔ PyStr.forall_chars (λ c, negb (is_letter c)) s = true.
Proof.
  unfold tokenize, PyStr.split_ws. rewrite split_ws_go_nil.
  split.
  - intros [_ H]. induction s as [|c s IH]; [done|]. simpl in *.
    unfold letter_or_space in H at 1.
    rewrite lower_az_lower_char_letter, isspace_lower_char in H.
    destruct (is_letter c) eqn:Hl; simpl in *.
    + apply andb_true_iff in H as [H _].
      rewrite isspace_lower_char in H.
      apply isspace_not_letter in H. congruence.
    + destruct (PyStr.isspace c); simpl in H; [|by apply IH].
      apply andb_true_iff in H as [_ H]. by apply IH.
  - intros H. split; [done|]. induction s as [|c s IH]; [done|]. simpl in *.
    apply andb_true_iff in H as [Hc Hs]. apply negb_true_iff in Hc.
    unfold letter_or_space at 1.
    rewrite lower_az_lower_char_letter, isspace_lower_char, Hc. simpl.
    destruct (PyStr.isspace c) eqn:Hsp; simpl; [|by apply IH].
    rewrite isspace_lower_char, Hsp. by apply IH.
Qed.

Lemma no_letter_of_space ws :
  PyStr.forall_chars PyStr.isspace ws = true →
  PyStr.forall_chars (λ c, negb (is_letter c)) ws = true.
Proof.
  apply forall_chars_impl. intros c Hc.
  by rewrite (isspace_not_letter c Hc).
Qed.

Lemma tokenize_app_spaces_r a ws :
  PyStr.forall_chars PyStr.isspace ws = true →
  tokenize (a +:+ ws) = tokenize a.
Proof.
  destruct ws as [|c ws]; [by rewrite app_empty_r|]. simpl.
  intros [Hc Hws]%andb_true_iff.
  rewrite tokenize_app_space by done.
  rewrite (proj2 (tokenize_nil ws)) by (by apply no_letter_of_space).
  by rewrite app_nil_r.
Qed.

Lemma tokenize_app_spaces_l ws b :
  PyStr.forall_chars PyStr.isspace ws = true →
  tokenize (ws +:+ b) = tokenize b.
Proof.
  induction ws as [|c ws IH]; [done|]. simpl.
  intros [Hc Hws]%andb_true_iff.
  change (String c ws +:+ b) with ("" +:+ String c (ws +:+ b)).
  rewrite tokenize_app_space by done. by apply IH.
Qed.

(** [strip] takes white space off both ends, and nothing else. *)
Lemma lstrip_decompose s :
  ∃ ws, s = ws +:+ PyStr.lstrip s
        ∧ PyStr.forall_chars PyStr.isspace ws = true.
Proof.
  induction s as [|c s (ws & Hs & Hws)]; [by exists ""|]. simpl.
  destruct (PyStr.isspace c) eqn:Hc.
  - exists (String c ws). rewrite append_cons, <-Hs. simpl. by rewrite Hc.
  - by exists "".
Qed.

Lemma rev_app_app a b s :
  String.rev_app (a +:+ b) s = String.rev_app b (String.rev_app a s).
Proof.
  revert s. induction a as [|x a IH]; intros s; [done|].
  rewrite append_cons. simpl. apply IH.
Qed.

Lemma rev_app_distr a b : String.rev (a +:+ b) = String.rev b +:+ String.rev a.
Proof.
  unfold String.rev. by rewrite rev_app_app, rev_app_append.
Qed.

Lemma rstrip_decompose s :
  ∃ ws, s = PyStr.rstrip s +:+ ws
        ∧ PyStr.forall_chars PyStr.isspace ws = true.
Proof.
  destruct (lstrip_decompose (String.rev s)) as (ws & Hs & Hws).
  exists (String.rev ws). split; [|by rewrite forall_chars_rev].
  unfold PyStr.rstrip. rewrite <-rev_app_distr, <-Hs.
  by rewrite rev_involutive.
Qed.

Lemma tokenize_strip s : tokenize (PyStr.strip s) = tokenize s.
Proof.
  unfold PyStr.strip.
  destruct (lstrip_decompose s) as (ws1 & Hs1 & Hws1).
  destruct (rstrip_decompose (PyStr.lstrip s)) as (ws2 & Hs2 & Hws2).
  rewrite Hs1 at 2. rewrite tokenize_app_spaces_l by done.
  rewrite Hs2 at 2. by rewrite tokenize_app_spaces_r.
Qed.









(** *** Queries *)







End tokenizer_facts.

(** ** More about the methods *)

Section engine_facts.

Implicit Types (e : engine) (d : Z) (t text : string) (l r : loc)
  (m : gmap string (gset Z)).

(** The store and the counter through [delete_document], for every
    engine. *)
Lemma unindex_token_store d e t : same_store e (unindex_token d e t).
Proof.
  unfold unindex_token. destruct (inverted_index e !! t); [|done].
  by case_decide.
Qed.

Lemma foldl_unindex_token_store d ts e :
  same_store e (foldl (unindex_token d) e ts).
Proof.
  revert e. induction ts as [|t ts IH]; intros e; cbn [foldl]; [done|].
  destruct (unindex_token_store d e t) as [Hd Hn].
  destruct (IH (unindex_token d e t)) as [Hd' Hn'].
  split; congruence.
Qed.

Lemma delete_document_store d e :
  documents (delete_document d e).2 = delete d (documents e)
  ∧ next_doc_id (delete_document d e).2 = next_doc_id e.
Proof.
  unfold delete_document. destruct (documents e !! d) as [text|] eqn:Hd.
  - cbn [snd].
    destruct (foldl_unindex_token_store d (token_set text)
                (set_documents (delete d (documents e)) e)) as [-> ->].
    done.
  - cbn [snd]. by rewrite delete_id.
Qed.

(** What [search] returns is part of the store, for every engine. *)
Lemma found_documents_subseteq (ids : gset Z) (docs : gmap Z string) :
  found_documents ids docs ⊆ docs.
Proof.
  apply map_subseteq_spec. intros d text.
  rewrite found_documents_lookup. by case_decide.
Qed.

Lemma found_documents_empty (docs : gmap Z string) :
  found_documents ∅ docs = ∅.
Proof.
  apply map_eq. intros d. rewrite found_documents_lookup, lookup_empty.
  by rewrite decide_False by set_solver.
Qed.

Lemma evaluate_subseteq op terms e : (evaluate op terms e).1 ⊆ documents e.
Proof.
  destruct terms as [|first_term rest].
  - apply map_empty_subseteq.
  - destruct (evaluate_differs op (first_term :: rest) e) as (Hd & _).
    unfold evaluate in *. cbn [fst snd] in *. rewrite Hd.
    apply found_documents_subseteq.
Qed.

(** The loops of [search] on a well-formed engine, on the posting-set
    view. *)
Lemma content_foldl_update (g : gset Z → gset Z → gset Z) r m rest e :
  (∀ t l, inverted_index e !! t = Some l → l ≠ r) →
  is_Some (objects e !! r) →
  (∀ t, posting e t = m !! t) →
  content
    (foldl (λ e term,
              update_set (λ ids, g ids (default ∅ (posting e term))) r e)
           e rest) r
  = foldl (λ ids term, g ids (default ∅ (m !! term))) (content e r) rest.
Proof.
  revert e. induction rest as [|t rest IH]; intros e Hne Hr Hm;
    cbn [foldl]; [done|].
  rewrite IH.
  - f_equal. rewrite content_update_set. unfold content.
    destruct Hr as [ids ->]. cbn. by rewrite Hm.
  - done.
  - cbn. by rewrite lookup_alter_is_Some.
  - intros t'. rewrite <-Hm. unfold posting. cbn.
    destruct (inverted_index e !! t') as [l|] eqn:Ht'; [|done]. cbn.
    rewrite lookup_alter_ne; [done|]. intros <-. by eapply Hne.
Qed.

Lemma evaluate_result op terms e :
  wf e →
  (evaluate op terms e).1
  = found_documents (result_ids op (postings e) terms) (documents e).
Proof.
  intros Hwf. destruct terms as [|first_term rest].
  { by rewrite found_documents_empty. }
  destruct (evaluate_differs op (first_term :: rest) e) as (Hd & _).
  unfold evaluate in *. cbn [fst snd] in *. rewrite Hd. f_equal.
  set (r := fresh (dom (objects e))).
  set (e0 := set_objects _ e).
  assert (Hne : ∀ t l, inverted_index e0 !! t = Some l → l ≠ r).
  { intros t l Ht. by eapply wf_fresh. }
  assert (Hr : is_Some (objects e0 !! r)).
  { cbn. rewrite lookup_insert_eq. by eexists. }
  assert (Hm : ∀ t, posting e0 t = postings e !! t).
  { intros t. rewrite postings_lookup. unfold posting. cbn.
    destruct (inverted_index e !! t) as [l|] eqn:Ht; [|done]. cbn.
    rewrite lookup_insert_ne; [done|]. symmetry. by eapply wf_fresh. }
  assert (Hc : content e0 r = default ∅ (postings e !! first_term)).
  { unfold content. cbn. by rewrite lookup_insert_eq, postings_lookup. }
  unfold result_ids. rewrite <-Hc.
  destruct op.
  - apply (content_foldl_update (λ a b, a ∩ b) r (postings e) rest e0);
      done.
  - apply (content_foldl_update (λ a b, a ∪ b) r (postings e) rest e0);
      done.
Qed.

Lemma foldl_intersect_elem m rest (ids : gset Z) d :
  d ∈ foldl (λ ids term, ids ∩ default ∅ (m !! term)) ids rest ↔
  d ∈ ids ∧ ∀ t, t ∈ rest → d ∈ default ∅ (m !! t).
Proof.
  revert ids. induction rest as [|t rest IH]; intros ids; cbn [foldl].
  - set_solver.
  - rewrite IH. set_solver.
Qed.

Lemma foldl_union_elem m rest (ids : gset Z) d :
  d ∈ foldl (λ ids term, ids ∪ default ∅ (m !! term)) ids rest ↔
  d ∈ ids ∨ ∃ t, t ∈ rest ∧ d ∈ default ∅ (m !! t).
Proof.
  revert ids. induction rest as [|t rest IH]; intros ids; cbn [foldl].
  - set_solver.
  - rewrite IH. set_solver.
Qed.

Lemma result_ids_and m terms d :
  d ∈ result_ids AND m terms ↔
  terms ≠ [] ∧ ∀ t, t ∈ terms → d ∈ default ∅ (m !! t).
Proof.
  destruct terms as [|t rest]; cbn.
  - set_solver.
  - rewrite foldl_intersect_elem. set_solver.
Qed.

Lemma result_ids_or m terms d :
  d ∈ result_ids OR m terms ↔ ∃ t, t ∈ terms ∧ d ∈ default ∅ (m !! t).
Proof.
  destruct terms as [|t rest]; cbn.
  - set_solver.
  - rewrite foldl_union_elem. set_solver.
Qed.

Lemma in_posting_postings e t d :
  in_posting e t d ↔ d ∈ default ∅ (postings e !! t).
Proof.
  rewrite in_posting_alt. destruct (postings e !! t); cbn.
  - naive_solver.
  - split; [by intros (? & ? & ?)|set_solver].
Qed.

(** In a reachable state the tokens of a stored text decide where its
    identifier is. *)
Lemma posting_of_document e t d text :
  invariant e → documents e !! d = Some text →
  d ∈ default ∅ (postings e !! t) ↔ t ∈ tokenize text.
Proof.
  intros Hinv Hd. rewrite <-in_posting_postings, (inv_I1 e Hinv t d).
  unfold in_document. rewrite Hd. naive_solver.
Qed.

Lemma posting_of_absent e t d :
  invariant e → documents e !! d = None →
  d ∉ default ∅ (postings e !! t).
Proof.
  intros Hinv Hd. rewrite <-in_posting_postings, (inv_I1 e Hinv t d).
  unfold in_document. rewrite Hd. naive_solver.
Qed.

(** The posting sets are a function of the store. *)
Lemma postings_canonical e1 e2 :
  invariant e1 → invariant e2 → documents e1 = documents e2 →
  postings e1 = postings e2.
Proof.
  intros Hinv1 Hinv2 Hdocs. apply map_eq. intros t.
  assert (Hsame : ∀ d, d ∈ default ∅ (postings e1 !! t)
                       ↔ d ∈ default ∅ (postings e2 !! t)).
  { intros d. rewrite <-!in_posting_postings.
    rewrite (inv_I1 e1 Hinv1 t d), (inv_I1 e2 Hinv2 t d).
    unfold in_document. by rewrite Hdocs. }
  pose proof (inv_I2 e1 Hinv1 t) as Hne1.
  pose proof (inv_I2 e2 Hinv2 t) as Hne2.
  rewrite <-!postings_lookup in Hne1, Hne2.
  destruct (postings e1 !! t) as [ids1|] eqn:H1,
           (postings e2 !! t) as [ids2|] eqn:H2; cbn in Hsame.
  - f_equal. apply set_eq, Hsame.
  - destruct (set_choose_L ids1 (Hne1 ids1 eq_refl)) as [d Hd].
    apply Hsame in Hd. set_solver.
  - destruct (set_choose_L ids2 (Hne2 ids2 eq_refl)) as [d Hd].
    apply Hsame in Hd. set_solver.
  - done.
Qed.

(** A term is a key of the index exactly when a document has it. *)
Lemma index_key_iff e t :
  invariant e →
  is_Some (inverted_index e !! t) ↔ ∃ d, in_posting e t d.
Proof.
  intros [Hwf H1 H2]. split.
  - intros [l Hl]. destruct (wf_allocated e Hwf t l Hl) as [ids Hids].
    assert (Hp : posting e t = Some ids) by (unfold posting; by rewrite Hl).
    destruct (set_choose_L ids (H2 t ids Hp)) as [d Hd].
    exists d, ids. done.
  - intros (d & ids & Hp & _). unfold posting in Hp.
    destruct (inverted_index e !! t); [by eexists|done].
Qed.

End engine_facts.

(** ** Further properties of the code *)

(** *** The tokenizer *)

Lemma tokenize_term t : is_term t → tokenize t = [t].
Proof.
  intros [Hne Haz]. unfold tokenize, PyStr.lower.
  rewrite (map_chars_id PyStr.is_lower_az)
    by (done || apply lower_az_lower_char).
  rewrite filter_chars_id.
  - apply split_ws_no_space; [done|].
    eapply forall_chars_impl; [apply lower_az_no_space|done].
  - eapply forall_chars_impl; [|exact Haz]. intros c Hc.
    unfold letter_or_space. by rewrite Hc.
Qed.

(** X1: every token that [_tokenize] returns is a non-empty word of the
    letters [a]-[z], and tokenizing a token gives that token alone. *)
Theorem X1_tokens_are_words (text t : string) :
  t ∈ tokenize text →
  t ≠ ""
  ∧ PyStr.forall_chars PyStr.is_lower_az t = true
  ∧ tokenize t = [t].
Proof.
  intros Ht. pose proof (tokenize_terms text t Ht) as Hterm.
  destruct Hterm as [Hne Haz]. split_and!; [done..|].
  by apply tokenize_term.
Qed.

Lemma X1_tokens_are_words_witness :
  "dont" ∈ tokenize "Why DON'T you? 42"
  ∧ "dont" ≠ ""
  ∧ PyStr.forall_chars PyStr.is_lower_az "dont" = true
  ∧ tokenize "dont" = ["dont"].
Proof.
  assert (H : "dont" ∈ tokenize "Why DON'T you? 42")
    by (vm_compute; right; left).
  split; [exact H|]. exact (X1_tokens_are_words _ _ H).
Defined.

(** X2: [_tokenize] does not see the case of letters: the text in upper
    case and the text in lower case have the tokens of the text. *)
Theorem X2_tokenize_ignores_case (text : string) :
  tokenize (PyStr.upper text) = tokenize text
  ∧ tokenize (PyStr.lower text) = tokenize text.
Proof. split; [apply tokenize_upper|apply tokenize_lower]. Qed.

(** X3: a white-space character between two texts separates their
    tokens, so the tokens of the whole are those of the first part and
    then those of the second; white space at the ends of a text adds
    nothing. *)
Theorem X3_tokenize_concatenation (a b s : string) (c : ascii) :
  PyStr.isspace c = true →
  tokenize (a +:+ String c b) = (tokenize a ++ tokenize b)%list
  ∧ tokenize (PyStr.strip s) = tokenize s.
Proof.
  intros Hc. split; [by apply tokenize_app_space|apply tokenize_strip].
Qed.

Lemma X3_tokenize_concatenation_witness :
  PyStr.isspace (ascii_of_nat 9) = true
  ∧ tokenize ("The fox," +:+ String (ascii_of_nat 9) "IPSO-3 day")
    = (tokenize "The fox," ++ tokenize "IPSO-3 day")%list
  ∧ tokenize (PyStr.strip "  a dog ") = tokenize "  a dog ".
Proof.
  split; [reflexivity|].
  exact (X3_tokenize_concatenation "The fox," "IPSO-3 day" "  a dog "
           (ascii_of_nat 9) eq_refl).
Defined.


(** *** [search] *)




Lemma search_subseteq query e : (search query e).1 ⊆ documents e.
Proof.
  unfold search. destruct (query_terms query) as [op terms].
  apply evaluate_subseteq.
Qed.

(** X7: whatever the query and the state, every entry that [search]
    returns is an entry of the document store: a stored identifier with
    its stored text. *)
Theorem X7_search_returns_stored_documents (query : string) (e : engine) :
  (search query e).1 ⊆ documents e.
Proof. apply search_subseteq. Qed.

(** The entries that an evaluation returns in a reachable state. *)
Lemma evaluate_lookup op terms calls d text :
  (evaluate op terms (run calls)).1 !! d = Some text ↔
  documents (run calls) !! d = Some text
  ∧ d ∈ result_ids op (postings (run calls)) terms.
Proof.
  rewrite (evaluate_result op terms _ (inv_wf _ (invariant_run calls))).
  rewrite found_documents_lookup. case_decide; naive_solver.
Qed.

(** X8: in every reachable state, the evaluation of a list of terms
    with AND returns exactly the stored documents whose text has every
    term among its tokens (and nothing for the empty list). *)
Theorem X8_and_returns_documents_with_all_terms
    (calls : list call) (terms : list string) (d : Z) (text : string) :
  (evaluate AND terms (run calls)).1 !! d = Some text ↔
  terms ≠ []
  ∧ documents (run calls) !! d = Some text
  ∧ ∀ t, t ∈ terms → t ∈ tokenize text.
Proof.
  rewrite evaluate_lookup, result_ids_and.
  pose proof (invariant_run calls) as Hinv. split.
  - intros (Hd & Hne & Hall). split_and!; [done..|].
    intros t Ht. by apply (posting_of_document _ t d text Hinv Hd), Hall.
  - intros (Hne & Hd & Hall). split_and!; [done..|].
    intros t Ht. by apply (posting_of_document _ t d text Hinv Hd), Hall.
Qed.

(** X9: in every reachable state, the evaluation of a list of terms
    with OR returns exactly the stored documents whose text has at least
    one of the terms among its tokens. *)
Theorem X9_or_returns_documents_with_some_term
    (calls : list call) (terms : list string) (d : Z) (text : string) :
  (evaluate OR terms (run calls)).1 !! d = Some text ↔
  documents (run calls) !! d = Some text
  ∧ ∃ t, t ∈ terms ∧ t ∈ tokenize text.
Proof.
  rewrite evaluate_lookup, result_ids_or.
  pose proof (invariant_run calls) as Hinv. split.
  - intros (Hd & t & Ht & Hin). split; [done|]. exists t. split; [done|].
    by apply (posting_of_document _ t d text Hinv Hd).
  - intros (Hd & t & Ht & Hin). split; [done|]. exists t. split; [done|].
    by apply (posting_of_document _ t d text Hinv Hd).
Qed.



(** X11: in every reachable state, the evaluation with AND of a list
    that has a term the tokenizer cannot output (empty, or with a
    character outside [a]-[z], such as the two words of "quick brown")
    returns nothing. *)
Theorem X11_and_with_unmatchable_term
    (calls : list call) (terms : list string) (t : string) :
  t ∈ terms → ¬ is_term t →
  (evaluate AND terms (run calls)).1 = ∅.
Proof.
  intros Ht Hterm. apply map_eq. intros d. rewrite lookup_empty.
  apply eq_None_not_Some. intros [text Hd].
  apply evaluate_lookup in Hd as [Hd Hin].
  apply result_ids_and in Hin as [_ Hall].
  apply Hterm, (tokenize_terms text).
  by apply (posting_of_document _ t d text (invariant_run calls) Hd), Hall.
Qed.

Lemma X11_and_with_unmatchable_term_witness :
  "quick brown" ∈ (query_terms "quick brown AND fox").2
  ∧ ¬ is_term "quick brown"
  ∧ (evaluate AND (query_terms "quick brown AND fox").2 (run demo)).1 = ∅.
Proof.
  assert (H1 : "quick brown" ∈ (query_terms "quick brown AND fox").2)
    by (vm_compute; left).
  assert (H2 : ¬ is_term "quick brown")
    by (intros [_ H]; vm_compute in H; discriminate H).
  split; [exact H1|]. split; [exact H2|].
  exact (X11_and_with_unmatchable_term demo _ _ H1 H2).
Defined.

(** X12: in every reachable state, what an evaluation returns depends
    on which terms are in the list only, not on their order nor on how
    often one occurs. *)
Theorem X12_terms_as_a_set
    (calls : list call) (op : operator) (terms1 terms2 : list string) :
  (∀ t, t ∈ terms1 ↔ t ∈ terms2) →
  (evaluate op terms1 (run calls)).1 = (evaluate op terms2 (run calls)).1.
Proof.
  intros Hsame. apply map_eq. intros d. apply option_eq. intros text.
  rewrite !evaluate_lookup.
  assert (Hids : d ∈ result_ids op (postings (run calls)) terms1
                 ↔ d ∈ result_ids op (postings (run calls)) terms2).
  { destruct op.
    - rewrite !result_ids_and.
      assert (terms1 ≠ [] ↔ terms2 ≠ []).
      { destruct terms1 as [|a l1], terms2 as [|b l2]; try done.
        - split; [done|]. intros _. specialize (Hsame b). set_solver.
        - split; [|done]. intros _. specialize (Hsame a). set_solver. }
      naive_solver.
    - rewrite !result_ids_or. naive_solver. }
  naive_solver.
Qed.

Lemma X12_terms_as_a_set_witness :
  (∀ t, t ∈ ["dog"; "cat"] ↔ t ∈ ["cat"; "dog"; "cat"])
  ∧ (evaluate AND ["dog"; "cat"] (run demo)).1
    = (evaluate AND ["cat"; "dog"; "cat"] (run demo)).1.
Proof.
  assert (H : ∀ t, t ∈ ["dog"; "cat"] ↔ t ∈ ["cat"; "dog"; "cat"])
    by set_solver.
  split; [exact H|]. exact (X12_terms_as_a_set demo AND _ _ H).
Defined.

(** X13: in every reachable state every identifier in a posting set is
    a key of the document store, so the check of line 117 drops
    nothing: the keys that an evaluation returns are exactly the
    identifiers its set operations leave. *)
Theorem X13_filter_drops_nothing
    (calls : list call) (op : operator) (terms : list string) :
  (∀ t d, in_posting (run calls) t d → is_Some (documents (run calls) !! d))
  ∧ dom (evaluate op terms (run calls)).1
    = result_ids op (postings (run calls)) terms.
Proof.
  pose proof (invariant_run calls) as Hinv.
  assert (H3 : ∀ t d, in_posting (run calls) t d →
                      is_Some (documents (run calls) !! d)).
  { intros t d (text & Hd & _)%(inv_I1 _ Hinv). by exists text. }
  split; [done|]. apply set_eq. intros d.
  rewrite elem_of_dom. unfold is_Some.
  setoid_rewrite evaluate_lookup. split; [naive_solver|].
  intros Hin.
  assert (∃ t, in_posting (run calls) t d) as (t & [text Hd]%H3).
  { destruct op.
    - apply result_ids_and in Hin as [Hne Hall].
      destruct terms as [|t rest]; [done|]. exists t.
      apply in_posting_postings, Hall. left.
    - apply result_ids_or in Hin as (t & _ & Hin). exists t.
      by apply in_posting_postings. }
  by exists text.
Qed.

(** *** The index and the store *)

Lemma run_app calls1 calls2 :
  run (calls1 ++ calls2) = foldl step (run calls1) calls2.
Proof. unfold run. apply foldl_app. Qed.

Lemma next_doc_id_step e c :
  wf e →
  next_doc_id (step e c)
  = (next_doc_id e + auto_adds [c])%Z.
Proof.
  intros Hwf. destruct c as [text [d|]|d|query]; unfold step.
  - destruct (add_document_sim text (Some d) e Hwf) as (_ & _ & _ & _ & ->).
    cbn. lia.
  - destruct (add_document_sim text None e Hwf) as (_ & _ & _ & _ & ->).
    cbn. lia.
  - destruct (delete_document_store d e) as [_ ->]. cbn. lia.
  - destruct (search_frame query e) as (_ & _ & -> & _). cbn. lia.
Qed.

Lemma auto_adds_app calls1 calls2 :
  auto_adds (calls1 ++ calls2) = (auto_adds calls1 + auto_adds calls2)%Z.
Proof.
  induction calls1 as [|c calls1 IH]; [done|].
  destruct c as [text [d|]|d|query]; cbn; rewrite ?IH; lia.
Qed.

(** X14: the posting sets are a function of the document store: two
    sequences of calls that reach the same store reach the same posting
    sets, whatever was added, replaced or deleted on the way. *)
Theorem X14_index_determined_by_store (calls1 calls2 : list call) :
  documents (run calls1) = documents (run calls2) →
  postings (run calls1) = postings (run calls2).
Proof.
  apply postings_canonical; apply invariant_run.
Qed.

Lemma X14_index_determined_by_store_witness :
  let calls1 := [ AddDocument "a dog" (Some 1%Z) ] in
  let calls2 := [ AddDocument "the cat" (Some 1%Z); AddDocument "a bird" None;
                  Search "cat OR bird"; DeleteDocument 0%Z;
                  AddDocument "a dog" (Some 1%Z) ] in
  documents (run calls1) = documents (run calls2)
  ∧ postings (run calls1) = postings (run calls2).
Proof.
  cbn zeta.
  assert (H : documents (run [ AddDocument "a dog" (Some 1%Z) ])
              = documents (run [ AddDocument "the cat" (Some 1%Z);
                                 AddDocument "a bird" None;
                                 Search "cat OR bird"; DeleteDocument 0%Z;
                                 AddDocument "a dog" (Some 1%Z) ]))
    by (vm_compute; reflexivity).
  split; [exact H|]. exact (X14_index_determined_by_store _ _ H).
Defined.

(** X15: in every reachable state, adding a document under an
    identifier that is not in the store and deleting it again gives back
    the store, the posting sets and the counter of before;
    [delete_document] returns [True]. *)
Theorem X15_add_then_delete
    (calls : list call) (text : string) (d : Z) :
  documents (run calls) !! d = None →
  let r := delete_document d (add_document text (Some d) (run calls)).2 in
  r.1 = true
  ∧ documents r.2 = documents (run calls)
  ∧ postings r.2 = postings (run calls)
  ∧ next_doc_id r.2 = next_doc_id (run calls).
Proof.
  intros Hd. cbn zeta.
  pose proof (invariant_run calls) as Hinv.
  pose proof (invariant_add text (Some d) _ Hinv) as Hinv1.
  destruct (add_document_sim text (Some d) _ (inv_wf _ Hinv))
    as (_ & _ & _ & Hdocs1 & Hnext1).
  set (e1 := (add_document text (Some d) (run calls)).2) in *.
  change (used_id (Some d) (run calls)) with d in Hdocs1.
  change (counter_after (Some d) (run calls))
    with (next_doc_id (run calls)) in Hnext1.
  assert (Hd1 : documents e1 !! d = Some text)
    by (by rewrite Hdocs1, lookup_insert_eq).
  destruct (delete_document_present d e1 text Hd1 (inv_wf _ Hinv1))
    as (Hret & _ & _ & Hdocs2 & Hnext2).
  assert (Hdocs : documents (delete_document d e1).2 = documents (run calls)).
  { by rewrite Hdocs2, Hdocs1, delete_insert_eq, delete_id. }
  split_and!; [done|done| |congruence].
  apply postings_canonical; [by apply invariant_delete|done..].
Qed.

Lemma X15_add_then_delete_witness :
  documents (run demo) !! 9%Z = None
  ∧ (delete_document 9%Z
       (add_document "A quick cat." (Some 9%Z) (run demo)).2).1 = true
  ∧ documents (delete_document 9%Z
       (add_document "A quick cat." (Some 9%Z) (run demo)).2).2
    = documents (run demo)
  ∧ postings (delete_document 9%Z
       (add_document "A quick cat." (Some 9%Z) (run demo)).2).2
    = postings (run demo)
  ∧ next_doc_id (delete_document 9%Z
       (add_document "A quick cat." (Some 9%Z) (run demo)).2).2
    = next_doc_id (run demo).
Proof.
  assert (H : documents (run demo) !! 9%Z = None)
    by (vm_compute; reflexivity).
  split; [exact H|]. exact (X15_add_then_delete demo "A quick cat." 9%Z H).
Defined.

(** X16: in every reachable state, two documents added under two
    different explicit identifiers can be added in either order: the
    store, the posting sets and the counter are the same. *)
Theorem X16_adds_commute
    (calls : list call) (text1 text2 : string) (d1 d2 : Z) :
  d1 ≠ d2 →
  let e12 := run (calls ++ [ AddDocument text1 (Some d1);
                             AddDocument text2 (Some d2) ]) in
  let e21 := run (calls ++ [ AddDocument text2 (Some d2);
                             AddDocument text1 (Some d1) ]) in
  documents e12 = documents e21
  ∧ postings e12 = postings e21
  ∧ next_doc_id e12 = next_doc_id e21.
Proof.
  intros Hne. cbn zeta.
  assert (Hstore : ∀ ta a tb b,
    documents (run (calls ++ [AddDocument ta (Some a);
                              AddDocument tb (Some b)]))
    = <[b := tb]> (<[a := ta]> (documents (run calls)))
    ∧ next_doc_id (run (calls ++ [AddDocument ta (Some a);
                                  AddDocument tb (Some b)]))
      = next_doc_id (run calls)).
  { intros ta a tb b. rewrite run_app. cbn [foldl step].
    pose proof (invariant_run calls) as Hinv.
    pose proof (invariant_add ta (Some a) _ Hinv) as Hinv1.
    destruct (add_document_sim ta (Some a) _ (inv_wf _ Hinv))
      as (_ & _ & _ & Hd1 & Hn1).
    destruct (add_document_sim tb (Some b) _ (inv_wf _ Hinv1))
      as (_ & _ & _ & Hd2 & Hn2).
    set (e1 := (add_document ta (Some a) (run calls)).2) in *.
    change (used_id (Some a) (run calls)) with a in Hd1.
    change (used_id (Some b) e1) with b in Hd2.
    change (counter_after (Some a) (run calls))
      with (next_doc_id (run calls)) in Hn1.
    change (counter_after (Some b) e1) with (next_doc_id e1) in Hn2.
    rewrite Hd2, Hn2, Hd1, Hn1. done. }
  destruct (Hstore text1 d1 text2 d2) as [Hd12 Hn12].
  destruct (Hstore text2 d2 text1 d1) as [Hd21 Hn21].
  assert (Hdocs : documents (run (calls ++ [AddDocument text1 (Some d1);
                                            AddDocument text2 (Some d2)]))
                  = documents (run (calls ++ [AddDocument text2 (Some d2);
                                              AddDocument text1 (Some d1)]))).
  { rewrite Hd12, Hd21. by apply insert_insert_ne. }
  split_and!; [done| |congruence].
  apply postings_canonical; [apply invariant_run..|done].
Qed.

Lemma X16_adds_commute_witness :
  1%Z ≠ 2%Z
  ∧ postings (run [ AddDocument "a dog" (Some 1%Z);
                    AddDocument "a cat" (Some 2%Z) ])
    = postings (run [ AddDocument "a cat" (Some 2%Z);
                      AddDocument "a dog" (Some 1%Z) ]).
Proof.
  assert (H : 1%Z ≠ 2%Z) by lia.
  split; [exact H|].
  exact (proj1 (proj2 (X16_adds_commute [] "a dog" "a cat" 1%Z 2%Z H))).
Defined.

(** X17: in every reachable state the counter is the number of calls of
    [add_document] without an identifier made so far: these calls raise
    it by one, and no other call changes it. *)
Theorem X17_counter_counts_automatic_adds (calls : list call) :
  next_doc_id (run calls) = auto_adds calls.
Proof.
  induction calls as [|c calls IH] using rev_ind; [done|].
  rewrite run_snoc, auto_adds_app, <-IH.
  apply next_doc_id_step, (inv_wf _ (invariant_run calls)).
Qed.

(** X18: in every reachable state, [add_document] returns the
    identifier it was given, or the counter when it was given none; the
    store after the call is the store of before with the text under that
    identifier; and for every other identifier the posting sets it is in
    are those of before. *)
Theorem X18_add_document_frame
    (calls : list call) (text : string) (doc_id : option Z) :
  let r := add_document text doc_id (run calls) in
  r.1 = default (next_doc_id (run calls)) doc_id
  ∧ documents r.2 = <[r.1 := text]> (documents (run calls))
  ∧ ∀ t d, d ≠ r.1 → in_posting r.2 t d ↔ in_posting (run calls) t d.
Proof.
  cbn zeta. pose proof (invariant_run calls) as Hinv.
  pose proof (invariant_add text doc_id _ Hinv) as Hinv1.
  destruct (add_document_sim text doc_id _ (inv_wf _ Hinv))
    as (Hid & _ & _ & Hdocs & _).
  unfold used_id in *. rewrite Hid. split_and!; [done..|].
  intros t d Hne.
  rewrite (inv_I1 _ Hinv1 t d), (inv_I1 _ Hinv t d).
  unfold in_document. by rewrite Hdocs, lookup_insert_ne.
Qed.

(** X19: in every reachable state, [delete_document] of a stored
    identifier returns [True]; afterwards the identifier is neither in
    the store nor in any posting set, the other documents and the
    posting sets they are in are those of before, and a term is still a
    key of the index exactly when another document had it. *)
Theorem X19_delete_document_present
    (calls : list call) (d : Z) (text : string) :
  documents (run calls) !! d = Some text →
  let r := delete_document d (run calls) in
  r.1 = true
  ∧ documents r.2 = delete d (documents (run calls))
  ∧ (∀ t, ¬ in_posting r.2 t d)
  ∧ (∀ t d', d' ≠ d → in_posting r.2 t d' ↔ in_posting (run calls) t d')
  ∧ (∀ t, is_Some (inverted_index r.2 !! t)
          ↔ ∃ d', d' ≠ d ∧ in_posting (run calls) t d').
Proof.
  intros Hd. cbn zeta. pose proof (invariant_run calls) as Hinv.
  pose proof (invariant_delete d _ Hinv) as Hinv1.
  destruct (delete_document_present d _ text Hd (inv_wf _ Hinv))
    as (Hret & _ & _ & Hdocs & _).
  assert (Hgone : ∀ t, ¬ in_posting (delete_document d (run calls)).2 t d).
  { intros t (text' & Hd' & _)%(inv_I1 _ Hinv1).
    by rewrite Hdocs, lookup_delete_eq in Hd'. }
  assert (Hother : ∀ t d', d' ≠ d →
            in_posting (delete_document d (run calls)).2 t d'
            ↔ in_posting (run calls) t d').
  { intros t d' Hne.
    rewrite (inv_I1 _ Hinv1 t d'), (inv_I1 _ Hinv t d').
    unfold in_document. by rewrite Hdocs, lookup_delete_ne. }
  split_and!; [done..|].
  intros t. rewrite (index_key_iff _ t Hinv1). split.
  - intros [d' Hin]. exists d'.
    assert (d' ≠ d) by (intros ->; by eapply Hgone).
    split; [done|]. by apply Hother.
  - intros (d' & Hne & Hin). exists d'. by apply Hother.
Qed.

Lemma X19_delete_document_present_witness :
  documents (run demo) !! 1%Z
  = Some "The quick brown fox jumps over the lazy dog."
  ∧ (delete_document 1%Z (run demo)).1 = true
  ∧ documents (delete_document 1%Z (run demo)).2
    = delete 1%Z (documents (run demo)).
Proof.
  assert (H : documents (run demo) !! 1%Z
              = Some "The quick brown fox jumps over the lazy dog.")
    by (vm_compute; reflexivity).
  split; [exact H|].
  destruct (X19_delete_document_present demo 1%Z _ H) as (H1 & H2 & _).
  exact (conj H1 H2).
Defined.

(** X20: in every state, deleting an identifier a second time returns
    [False] and changes nothing. *)
Theorem X20_delete_twice (e : engine) (d : Z) :
  delete_document d (delete_document d e).2
  = (false, (delete_document d e).2).
Proof.
  apply delete_document_absent.
  destruct (delete_document_store d e) as [-> _]. apply lookup_delete_eq.
Qed.

(** X21: in every state, after [delete_document] of an identifier no
    query returns that identifier. *)
Theorem X21_deleted_is_not_found (e : engine) (d : Z) (query : string) :
  (search query (delete_document d e).2).1 !! d = None.
Proof.
  eapply lookup_weaken_None; [|apply search_subseteq].
  destruct (delete_document_store d e) as [-> _]. apply lookup_delete_eq.
Qed.

(** X22: in every reachable state a search leaves the results of later
    searches as they are: a query gives after any other query what it
    gives without it. *)
Theorem X22_searches_do_not_interfere
    (calls : list call) (query1 query2 : string) :
  (search query2 (search query1 (run calls)).2).1
  = (search query2 (run calls)).1.
Proof.
  pose proof (invariant_run calls) as Hinv.
  destruct (search_frame query1 (run calls)) as (Hd & Hi & _ & Ho).
  destruct (frame_wf _ _ Hi Ho (inv_wf _ Hinv)) as [Hwf Hp].
  unfold search at 1 3. destruct (query_terms query2) as [op terms].
  rewrite (evaluate_result op terms _ Hwf).
  rewrite (evaluate_result op terms _ (inv_wf _ Hinv)).
  by rewrite Hp, Hd.
Qed.

(** *** The listings *)







